(** * gowaveform: sample aggregation and loudness reduction

    A shallow embedding of [waveform/waveform.go] and
    [waveform/calculations.go], and the properties of the bucket
    partitioner, the loudness calculators, the fork-join executor and the
    waveform holder that the specification states.

    Modelling conventions.
    - Go's [int] is the 64-bit two's-complement integer: a [Z] together with
      the wrap-around [Int.wrap] applied after each arithmetic operation.
    - Go's [float64] is the kernel's binary64 [float]: every operation is
      rounded to nearest-even on its own, as the compiler emits it when it
      does not fuse a multiplication with an addition.
    - A run-time panic (index out of range, negative [make], nil
      dereference, division by zero) is the result [None].
    - [[]int16] is a [list Z]; the predicate [int16_slice] says that every
      element is in the range of the type.
    - A pointer that may be nil is an [option]; no modelled function writes
      through a [*Config], so the pointee is held by value. *)

From Stdlib Require Import ZArith Lia List Bool String Floats.
From Stdlib Require Uint63.
From stdpp Require Import base list.
Import ListNotations.

Local Open Scope Z_scope.
#[local] Set Warnings "-inexact-float".

(** ** Go's [int] *)

Module Int.

Definition min_int : Z := - 2 ^ 63.
Definition max_int : Z := 2 ^ 63 - 1.

Definition wrap (z : Z) : Z := (z + 2 ^ 63) mod 2 ^ 64 - 2 ^ 63.

Definition in_range (z : Z) : Prop := min_int <= z <= max_int.

Definition add (x y : Z) : Z := wrap (x + y).
Definition sub (x y : Z) : Z := wrap (x - y).
Definition mul (x y : Z) : Z := wrap (x * y).

(** [x / y]: truncated division, a panic when the divisor is zero. *)
Definition div (x y : Z) : option Z :=
  if y =? 0 then None else Some (wrap (Z.quot x y)).

Lemma wrap_id z : in_range z -> wrap z = z.
Proof.
  unfold in_range, min_int, max_int, wrap. intros H.
  rewrite Z.mod_small by lia. lia.
Qed.

Lemma wrap_in_range z : in_range (wrap z).
Proof.
  unfold in_range, min_int, max_int, wrap.
  pose proof (Z.mod_pos_bound (z + 2 ^ 63) (2 ^ 64) ltac:(lia)). lia.
Qed.

End Int.

(** [len(s)] *)
Definition len {A} (s : list A) : Z := Z.of_nat (length s).

(** ** Go's [float64] *)

Module F64.

Local Open Scope float_scope.

(** [float64(n)] for an integer [n]: the nearest binary64 value. *)
Definition of_int (n : Z) : float :=
  SF2Prim (binary_normalize prec emax n 0 false).

Definition sign_bit (s : bool) : Z := if s then 2 ^ 63 else 0.

(** The reinterpretation of the float64 [x] as a uint64 (the cast
    through [unsafe.Pointer]): the IEEE-754 bit pattern of [x].
    The kernel's floats have one NaN; it is given the bits of Go's
    [math.NaN()]. *)
Definition bits (x : float) : Z :=
  match Prim2SF x with
  | S754_zero s => sign_bit s
  | S754_infinity s => (sign_bit s + 0x7FF0000000000000)%Z
  | S754_nan => 0x7FF8000000000001%Z
  | S754_finite s m e =>
      if (Z.pos m <? 2 ^ 52)%Z
      then (sign_bit s + Z.pos m)%Z
      else (sign_bit s + (e + 1075) * 2 ^ 52 + (Z.pos m - 2 ^ 52))%Z
  end.

(** The reinterpretation of the uint64 [i] as a float64. *)
Definition frombits (i : Z) : float :=
  let s := Z.testbit i 63 in
  let e := ((i / 2 ^ 52) mod 2 ^ 11)%Z in
  let frac := (i mod 2 ^ 52)%Z in
  SF2Prim
    (if (e =? 0)%Z then
       if (frac =? 0)%Z then S754_zero s
       else S754_finite s (Z.to_pos frac) (-1074)
     else if (e =? 2047)%Z then
       if (frac =? 0)%Z then S754_infinity s else S754_nan
     else S754_finite s (Z.to_pos (frac + 2 ^ 52)) (e - 1075)).

(** Subtraction of [uint64] values wraps modulo [2^64]. *)
Definition uint64_sub (x y : Z) : Z := ((x - y) mod 2 ^ 64)%Z.

End F64.

(** ** Panics

    A computation that may panic is an [option]; sequencing is stdpp's
    [x ← m; k], which stops at the first [None]. *)

(** [for i := lo; i < hi; i++ { s = body(i, s) }].  The counter never
    wraps: it stays below [hi]. *)
Fixpoint for_loop {S} (n : nat) (i : Z) (body : Z -> S -> option S) (s : S)
  : option S :=
  match n with
  | O => Some s
  | Datatypes.S n' => s' ← body i s; for_loop n' (i + 1) body s'
  end.

Definition for_range {S} (lo hi : Z) (body : Z -> S -> option S) (s : S)
  : option S :=
  for_loop (Z.to_nat (hi - lo)) lo body s.

(** [samples[i]]: a panic when [i] is out of range. *)
Definition sample_at (samples : list Z) (i : Z) : option Z :=
  if i <? 0 then None else samples !! Z.to_nat i.

Definition int16 (z : Z) : Prop := -32768 <= z <= 32767.
Definition int16_slice (samples : list Z) : Prop := Forall int16 samples.

(** ** calculations.go *)

Section Calculations.

Local Open Scope float_scope.

Definition invMaxSample : float := 1 / 32768.

(** [fastSqrt] *)
Definition fastSqrt (x : float) : float :=
  if x <=? 0 then 0
  else
    let i := F64.bits x in
    let i := F64.uint64_sub 0x5fe6eb50c7b537a9 (Z.shiftr i 1) in
    let y := F64.frombits i in
    let y := y * (1.5 - 0.5 * x * y * y) in
    1 / y.

(** [val := float64(samples[i]) * invMaxSample] *)
Definition normalized (samples : list Z) (i : Z) : option float :=
  s ← sample_at samples i; Some (F64.of_int s * invMaxSample).

(** [if val < 0 { val = -val }] *)
Definition negate_if_negative (v : float) : float :=
  if v <? 0 then - v else v.

Definition calculateLUFS (samples : list Z) (start end_ : Z) : option float :=
  if (end_ <=? start)%Z then Some 0
  else
    let bucketSize := Int.sub end_ start in
    '(sum, _) ←
      for_range start end_
        (fun i '(sum, prevSample) =>
           sample ← normalized samples i;
           let filtered := sample - 0.85 * prevSample in
           let absFiltered := negate_if_negative filtered in
           let scaled :=
             absFiltered * absFiltered * (1 + absFiltered * 0.5) in
           Some (sum + scaled, sample))
        (0, 0);
    if (bucketSize >? 0)%Z then
      let meanSquare := sum / F64.of_int bucketSize in
      let lufs := fastSqrt meanSquare in
      Some (if 0.1 <? lufs then lufs * lufs * 2 else lufs * 0.5)
    else Some 0.

(** The first loop of [calculateRMS]:
    [for ; i <= end-8; i += 8], eight samples for each iteration. *)
Fixpoint rms_unrolled (n : nat) (samples : list Z) (i : Z) (sum : float)
  : option (Z * float) :=
  match n with
  | O => Some (i, sum)
  | S n' =>
      val1 ← normalized samples i;
      val2 ← normalized samples (Int.add i 1);
      val3 ← normalized samples (Int.add i 2);
      val4 ← normalized samples (Int.add i 3);
      val5 ← normalized samples (Int.add i 4);
      val6 ← normalized samples (Int.add i 5);
      val7 ← normalized samples (Int.add i 6);
      val8 ← normalized samples (Int.add i 7);
      rms_unrolled n' samples (Int.add i 8)
        (sum + (val1 * val1 + val2 * val2 + val3 * val3 + val4 * val4
                + val5 * val5 + val6 * val6 + val7 * val7 + val8 * val8))
  end.

(** The number of times the guard [i <= end-8] holds from [i = start]. *)
Definition rms_groups (start end_ : Z) : nat :=
  Z.to_nat ((Int.sub end_ 8 - start) / 8 + 1).

Definition calculateRMS (samples : list Z) (start end_ : Z) : option float :=
  if (end_ <=? start)%Z then Some 0
  else
    let bucketSize := Int.sub end_ start in
    '(i, sum) ← rms_unrolled (rms_groups start end_) samples start 0;
    sum ←
      for_range i end_
        (fun i sum => val ← normalized samples i; Some (sum + val * val))
        sum;
    if (bucketSize >? 0)%Z then Some (fastSqrt (sum / F64.of_int bucketSize))
    else Some 0.

Definition calculatePeak (samples : list Z) (start end_ : Z) : option float :=
  if (end_ <=? start)%Z then Some 0
  else
    for_range start end_
      (fun i maxVal =>
         val ← normalized samples i;
         let val := negate_if_negative val in
         Some (if maxVal <? val then val else maxVal))
      0.

Definition calculateVU (samples : list Z) (start end_ : Z) : option float :=
  if (end_ <=? start)%Z then Some 0
  else
    let bucketSize := Int.sub end_ start in
    sum ←
      for_range start end_
        (fun i sum =>
           val ← normalized samples i; Some (sum + val * val * 0.8))
        0;
    if (bucketSize >? 0)%Z then
      let vu := fastSqrt (sum / F64.of_int bucketSize) in
      Some (vu * 1.2)
    else Some 0.

Definition calculateDynamic (samples : list Z) (start end_ : Z)
  : option float :=
  if (end_ <=? start)%Z then Some 0
  else
    let bucketSize := Int.sub end_ start in
    mean ←
      for_range start end_
        (fun i mean =>
           val ← normalized samples i;
           Some (mean + negate_if_negative val))
        0;
    let mean := mean / F64.of_int bucketSize in
    '(sum, variance) ←
      for_range start end_
        (fun i '(sum, variance) =>
           val ← normalized samples i;
           let val := negate_if_negative val in
           let diff := val - mean in
           Some (sum + val * val, variance + diff * diff))
        (0, 0);
    if (bucketSize >? 0)%Z then
      let rms := fastSqrt (sum / F64.of_int bucketSize) in
      let dynamicFactor := fastSqrt (variance / F64.of_int bucketSize) in
      Some (rms * (1 + dynamicFactor * 2))
    else Some 0.

Definition smoothingFactor : float := 0.95.

Definition calculateSmooth (samples : list Z) (start end_ : Z)
  : option float :=
  if (end_ <=? start)%Z then Some 0
  else
    let bucketSize := Int.sub end_ start in
    '(sum, _) ←
      for_range start end_
        (fun i '(sum, smoothedPrev) =>
           val ← normalized samples i;
           let val := negate_if_negative val in
           let smoothedPrev :=
             smoothingFactor * smoothedPrev + 0.05 * val in
           Some (sum + smoothedPrev * smoothedPrev, smoothedPrev))
        (0, 0);
    if (bucketSize >? 0)%Z then
      let smooth := fastSqrt (sum / F64.of_int bucketSize) in
      Some (smooth * 0.8)
    else Some 0.

(** [CalculationMode] is a string type. *)
Definition CalculationMode := string.
Definition ModeRMS : CalculationMode := "rms"%string.
Definition ModeLUFS : CalculationMode := "lufs"%string.
Definition ModePeak : CalculationMode := "peak"%string.
Definition ModeVU : CalculationMode := "vu"%string.
Definition ModeDynamic : CalculationMode := "dynamic"%string.
Definition ModeSmooth : CalculationMode := "smooth"%string.

Definition calculateLoudness (samples : list Z) (start end_ : Z)
    (mode : CalculationMode) : option float :=
  if String.eqb mode ModeRMS then calculateRMS samples start end_
  else if String.eqb mode ModeLUFS then calculateLUFS samples start end_
  else if String.eqb mode ModePeak then calculatePeak samples start end_
  else if String.eqb mode ModeVU then calculateVU samples start end_
  else if String.eqb mode ModeDynamic then calculateDynamic samples start end_
  else if String.eqb mode ModeSmooth then calculateSmooth samples start end_
  else calculateLUFS samples start end_.

End Calculations.

(** ** waveform.go *)

Record Config := {
  Width : Z;
  Height : Z;
  Bars : Z;
  BarSpacing : Z;
  BarColor : string;
  CornerRadius : float;
  Concurrent : bool;
  Mode : CalculationMode
}.

Definition DefaultConfig : Config := {|
  Width := 500;
  Height := 80;
  Bars := 100;
  BarSpacing := 2;
  BarColor := "#3B82F6";
  CornerRadius := 8%float;
  Concurrent := true;
  Mode := ModeDynamic
|}.

(** The [Config] field is a [*Config]: [None] is the nil pointer.  A nil
    [Peaks] is the empty list; no modelled function tells the two apart. *)
Record Waveform := {
  Peaks : list float;
  Config_ : option Config
}.

(** [make([]float64, n)]: a panic when [n] is negative. *)
Definition make_float64 (n : Z) : option (list float) :=
  if n <? 0 then None else Some (replicate (Z.to_nat n) 0%float).

(** [peaks[i] = v]: a panic when [i] is out of range. *)
Definition store (peaks : list float) (i : Z) (v : float)
  : option (list float) :=
  if (i <? 0) || (len peaks <=? i) then None
  else Some (<[Z.to_nat i := v]> peaks).

(** [samplesPerBucket := len(samples) / buckets], clamped up to 1. *)
Definition samplesPerBucket (n buckets : Z) : option Z :=
  spb ← Int.div n buckets;
  Some (if spb =? 0 then 1 else spb).

(** The sample range of a bucket: [start := bucket * samplesPerBucket],
    [end := start + samplesPerBucket], cut at [len(samples)]. *)
Definition bucket_range (n spb bucket : Z) : Z * Z :=
  let start := Int.mul bucket spb in
  let end_ := Int.add start spb in
  (start, if end_ >? n then n else end_).

(** The body of the loop over buckets, shared by both paths:
    [peaks[bucket] = calculateLoudness(samples, start, end, mode)]. *)
Definition fill_bucket (samples : list Z) (spb : Z) (mode : CalculationMode)
    (bucket : Z) (peaks : list float) : option (list float) :=
  let '(start, end_) := bucket_range (len samples) spb bucket in
  v ← calculateLoudness samples start end_ mode;
  store peaks bucket v.

Definition downsample (samples : list Z) (buckets : Z) (mode : CalculationMode)
  : option (list float) :=
  if (len samples =? 0) || (buckets =? 0) then Some []
  else
    spb ← samplesPerBucket (len samples) buckets;
    peaks ← make_float64 buckets;
    for_range 0 buckets (fill_bucket samples spb mode) peaks.

(** A goroutine of [downsampleConcurrent]: its loop counter [bucket] and
    its bound [endBucket]. *)
Record worker := {
  w_bucket : Z;
  w_endBucket : Z
}.

Definition spawn (buckets bucketsPerWorker numWorkers workerID : Z) : worker :=
  let startBucket := Int.mul workerID bucketsPerWorker in
  let endBucket := Int.add startBucket bucketsPerWorker in
  {| w_bucket := startBucket;
     w_endBucket :=
       if workerID =? Int.sub numWorkers 1 then buckets else endBucket |}.

(** One iteration of the loop of a goroutine, or nothing when the goroutine
    has left its loop. *)
Definition worker_step (fill : Z -> list float -> option (list float))
    (w : worker) (peaks : list float) : option (worker * list float) :=
  if w_bucket w <? w_endBucket w then
    peaks' ← fill (w_bucket w) peaks;
    Some ({| w_bucket := w_bucket w + 1; w_endBucket := w_endBucket w |},
          peaks')
  else Some (w, peaks).

(** The goroutines run interleaved: the scheduler picks, step by step, the
    goroutine that runs its next iteration.  A pick of a goroutine that
    does not exist or has finished changes nothing. *)
Fixpoint run_schedule (fill : Z -> list float -> option (list float))
    (sched : list nat) (ws : list worker) (peaks : list float)
  : option (list worker * list float) :=
  match sched with
  | [] => Some (ws, peaks)
  | k :: sched' =>
      match ws !! k with
      | None => run_schedule fill sched' ws peaks
      | Some w =>
          '(w', peaks') ← worker_step fill w peaks;
          run_schedule fill sched' (<[k := w']> ws) peaks'
      end
  end.

(** [wg.Wait()]: the call returns when every goroutine has run to its
    end. *)
Fixpoint wait (fill : Z -> list float -> option (list float))
    (ws : list worker) (peaks : list float) : option (list float) :=
  match ws with
  | [] => Some peaks
  | w :: ws' =>
      peaks' ← for_range (w_bucket w) (w_endBucket w) fill peaks;
      wait fill ws' peaks'
  end.

(** [numCPU] is [runtime.NumCPU()]; [sched] is the interleaving that the
    run-time scheduler chooses. *)
Definition downsampleConcurrent (numCPU : Z) (sched : list nat)
    (samples : list Z) (buckets : Z) (mode : CalculationMode)
  : option (list float) :=
  if (len samples =? 0) || (buckets =? 0) then Some []
  else
    spb ← samplesPerBucket (len samples) buckets;
    if len samples <? 50000 then downsample samples buckets mode
    else
      peaks ← make_float64 buckets;
      bucketsPerWorker ← Int.div buckets numCPU;
      let '(bucketsPerWorker, numWorkers) :=
        if bucketsPerWorker =? 0 then (1, buckets)
        else (bucketsPerWorker, numCPU) in
      let ws :=
        map (fun k => spawn buckets bucketsPerWorker numWorkers (Z.of_nat k))
          (seq 0 (Z.to_nat numWorkers)) in
      '(ws, peaks) ← run_schedule (fill_bucket samples spb mode) sched ws peaks;
      wait (fill_bucket samples spb mode) ws peaks.

(** The generation step shared by [NewFromSamples] and [UpdateConfig]. *)
Definition generate (numCPU : Z) (sched : list nat) (samples : list Z)
    (config : Config) : option (list float) :=
  if Concurrent config
  then downsampleConcurrent numCPU sched samples (Bars config) (Mode config)
  else downsample samples (Bars config) (Mode config).

Definition NewFromSamples (numCPU : Z) (sched : list nat) (samples : list Z)
    (config : option Config) : option Waveform :=
  let config := default DefaultConfig config in
  peaks ← generate numCPU sched samples config;
  Some {| Peaks := peaks; Config_ := Some config |}.

(** [samples] is [None] for the nil slice.  The receiver is updated in
    place: the result is its new state. *)
Definition UpdateConfig (numCPU : Z) (sched : list nat) (w : Waveform)
    (config : option Config) (samples : option (list Z)) : option Waveform :=
  old ← Config_ w;
  let oldMode := Mode old in
  let w := {| Peaks := Peaks w; Config_ := config |} in
  config ← config;
  if negb (String.eqb oldMode (Mode config)) && bool_decide (is_Some samples)
  then
    peaks ← generate numCPU sched (default [] samples) config;
    Some {| Peaks := peaks; Config_ := Config_ w |}
  else Some w.

(** * Properties *)

(** ** Counted loops *)

Section Loops.

Context {S : Type}.
Implicit Types (body : Z -> S -> option S) (s : S).

(** The invariant rule: a body that keeps [P] and never panics inside the
    range gives a loop that returns, with [P] at the exit. *)
Lemma for_loop_inv (P : Z -> S -> Prop) body :
  forall n i s,
    P i s ->
    (forall j t, i <= j < i + Z.of_nat n -> P j t ->
                 exists t', body j t = Some t' /\ P (j + 1) t') ->
    exists s', for_loop n i body s = Some s' /\ P (i + Z.of_nat n) s'.
Proof.
  induction n as [|n IH]; intros i s Hs Hbody; simpl.
  - exists s. split; [done|]. by replace (i + Z.of_nat 0) with i by lia.
  - destruct (Hbody i s) as (t & -> & Ht); [lia|done|]. simpl.
    destruct (IH (i + 1) t Ht) as (s' & -> & Hs').
    + intros j u Hj Hu. apply Hbody; [lia|done].
    + exists s'. split; [done|].
      by replace (i + Z.of_nat (Datatypes.S n)) with (i + 1 + Z.of_nat n) by lia.
Qed.

Lemma for_range_inv (P : Z -> S -> Prop) body lo hi s :
  lo <= hi ->
  P lo s ->
  (forall j t, lo <= j < hi -> P j t ->
               exists t', body j t = Some t' /\ P (j + 1) t') ->
  exists s', for_range lo hi body s = Some s' /\ P hi s'.
Proof.
  intros Hle Hs Hbody. unfold for_range.
  destruct (for_loop_inv P body (Z.to_nat (hi - lo)) lo s Hs) as (s' & E & H).
  - intros j t Hj. apply Hbody. lia.
  - exists s'. split; [done|]. by replace hi with (lo + Z.of_nat (Z.to_nat (hi - lo))) by lia.
Qed.

Lemma for_range_empty body lo hi s :
  hi <= lo -> for_range lo hi body s = Some s.
Proof.
  intros H. unfold for_range. by replace (Z.to_nat (hi - lo)) with 0%nat by lia.
Qed.

Lemma for_range_step body lo hi s :
  lo < hi ->
  for_range lo hi body s = s' ← body lo s; for_range (lo + 1) hi body s'.
Proof.
  intros H. unfold for_range.
  replace (Z.to_nat (hi - lo)) with (Datatypes.S (Z.to_nat (hi - (lo + 1)))) by lia.
  done.
Qed.

(** Two bodies that agree inside the range give the same loop. *)
Lemma for_loop_ext body body' :
  forall n i s,
    (forall j t, i <= j < i + Z.of_nat n -> body j t = body' j t) ->
    for_loop n i body s = for_loop n i body' s.
Proof.
  induction n as [|n IH]; intros i s H; simpl; [done|].
  rewrite H by lia. destruct (body' i s) as [t|]; simpl; [|done].
  apply IH. intros j u Hj. apply H. lia.
Qed.

End Loops.

(** ** No wrap-around inside the range of [int] *)

Lemma Int_add_id x y : Int.in_range (x + y) -> Int.add x y = x + y.
Proof. apply Int.wrap_id. Qed.

Lemma Int_sub_id x y : Int.in_range (x - y) -> Int.sub x y = x - y.
Proof. apply Int.wrap_id. Qed.

Lemma Int_mul_id x y : Int.in_range (x * y) -> Int.mul x y = x * y.
Proof. apply Int.wrap_id. Qed.

Lemma Int_div_nonneg x y :
  0 <= x <= Int.max_int -> 0 < y -> Int.div x y = Some (x / y).
Proof.
  intros Hx Hy. unfold Int.div.
  destruct (Z.eqb_spec y 0) as [->|_]; [lia|].
  rewrite Z.quot_div_nonneg by lia.
  rewrite Int.wrap_id; [done|].
  pose proof (Z.div_pos x y ltac:(lia) Hy).
  pose proof (Z.div_le_upper_bound x y x Hy ltac:(nia)).
  unfold Int.in_range, Int.min_int, Int.max_int in *. lia.
Qed.

Ltac int_range := unfold Int.in_range, Int.min_int, Int.max_int in *; lia.

(** ** The calculators return on every range inside the slice *)

Section CalculatorsReturn.

Variable samples : list Z.
Hypothesis Hlen : len samples <= Int.max_int.

Lemma sample_at_in_range i :
  0 <= i < len samples -> exists s, sample_at samples i = Some s.
Proof.
  intros Hi. unfold sample_at. destruct (Z.ltb_spec i 0); [lia|].
  apply lookup_lt_is_Some_2. unfold len in Hi. lia.
Qed.

Lemma sample_at_out_of_range i :
  i < 0 \/ len samples <= i -> sample_at samples i = None.
Proof.
  intros Hi. unfold sample_at. destruct (Z.ltb_spec i 0); [done|].
  apply lookup_ge_None_2. unfold len in Hi. lia.
Qed.

Lemma normalized_in_range i :
  0 <= i < len samples -> exists v, normalized samples i = Some v.
Proof.
  intros Hi. unfold normalized.
  destruct (sample_at_in_range i Hi) as (s & ->). simpl. eauto.
Qed.

(** A loop whose body reads [samples[i]] and cannot fail otherwise. *)
Lemma sample_loop_returns {S} (f : float -> S -> S) lo hi (s : S) :
  0 <= lo -> hi <= len samples ->
  exists s',
    for_range lo hi (fun i t => v ← normalized samples i; Some (f v t)) s
    = Some s'.
Proof.
  intros Hlo Hhi. destruct (Z.le_gt_cases hi lo).
  - rewrite for_range_empty by done. eauto.
  - destruct (for_range_inv (fun _ _ => True)
                (fun i t => v ← normalized samples i; Some (f v t)) lo hi s)
      as (s' & E & _); [lia|done| |eauto].
    intros j t Hj _. destruct (normalized_in_range j) as (v & ->); [lia|].
    simpl. eauto.
Qed.

Lemma rms_unrolled_returns n : forall i sum,
  0 <= i -> i + 8 * Z.of_nat n <= len samples ->
  exists sum', rms_unrolled n samples i sum = Some (i + 8 * Z.of_nat n, sum').
Proof.
  induction n as [|n IH]; intros i sum Hi Hn; simpl.
  - exists sum. do 2 f_equal. lia.
  - rewrite !Int_add_id by int_range.
    destruct (normalized_in_range i) as (v1 & ->); [lia|].
    destruct (normalized_in_range (i + 1)) as (v2 & ->); [lia|].
    destruct (normalized_in_range (i + 2)) as (v3 & ->); [lia|].
    destruct (normalized_in_range (i + 3)) as (v4 & ->); [lia|].
    destruct (normalized_in_range (i + 4)) as (v5 & ->); [lia|].
    destruct (normalized_in_range (i + 5)) as (v6 & ->); [lia|].
    destruct (normalized_in_range (i + 6)) as (v7 & ->); [lia|].
    destruct (normalized_in_range (i + 7)) as (v8 & ->); [lia|].
    simpl.
    edestruct (IH (i + 8)) as (sum' & ->); [lia|lia|].
    exists sum'. do 2 f_equal. lia.
Qed.

Lemma rms_groups_eq start end_ :
  0 <= start < end_ -> end_ <= len samples ->
  Z.of_nat (rms_groups start end_) = (end_ - start) / 8.
Proof.
  intros H1 H2. unfold rms_groups. rewrite Int_sub_id by int_range.
  replace (end_ - 8 - start) with ((end_ - start) + (-1) * 8) by lia.
  rewrite Z.div_add by lia.
  pose proof (Z.div_pos (end_ - start) 8 ltac:(lia) ltac:(lia)). lia.
Qed.


(** Any loop over an in-range part of the slice whose body fails only
    through [normalized] returns. *)
Ltac loop_returns lo hi :=
  match goal with
  | |- context [for_range lo hi ?body ?s] =>
      let E := fresh "E" in
      let r := fresh "r" in
      destruct (for_range_inv (fun _ _ => True) body lo hi s)
        as (r & E & _);
      [ lia | done
      | let j := fresh "j" in
        let t := fresh "t" in
        let Hj := fresh "Hj" in
        let v := fresh "v" in
        intros j t Hj _; try destruct t;
        destruct (normalized_in_range j) as (v & ->); [lia|];
        simpl; eauto
      | rewrite E; clear E; simpl ]
  end.

Section Range.

Variables start end_ : Z.
Hypothesis Hstart : 0 <= start.
Hypothesis Hend : end_ <= len samples.

Lemma calculateLUFS_returns : is_Some (calculateLUFS samples start end_).
Proof.
  unfold calculateLUFS. destruct (Z.leb_spec end_ start); [done|].
  loop_returns start end_. destruct r. by destruct (_ >? _).
Qed.

Lemma calculateRMS_returns : is_Some (calculateRMS samples start end_).
Proof.
  unfold calculateRMS. destruct (Z.leb_spec end_ start); [done|].
  pose proof (rms_groups_eq start end_ ltac:(lia) Hend) as Hg.
  pose proof (Z.mul_div_le (end_ - start) 8 ltac:(lia)).
  destruct (rms_unrolled_returns (rms_groups start end_) start 0%float)
    as (sum & ->); [done|lia|]. simpl.
  loop_returns (start + 8 * Z.of_nat (rms_groups start end_)) end_.
  by destruct (_ >? _).
Qed.

Lemma calculatePeak_returns : is_Some (calculatePeak samples start end_).
Proof.
  unfold calculatePeak. destruct (Z.leb_spec end_ start); [done|].
  by loop_returns start end_.
Qed.

Lemma calculateVU_returns : is_Some (calculateVU samples start end_).
Proof.
  unfold calculateVU. destruct (Z.leb_spec end_ start); [done|].
  loop_returns start end_. by destruct (_ >? _).
Qed.

Lemma calculateDynamic_returns :
  is_Some (calculateDynamic samples start end_).
Proof.
  unfold calculateDynamic. destruct (Z.leb_spec end_ start); [done|].
  loop_returns start end_. loop_returns start end_.
  destruct r0. by destruct (_ >? _).
Qed.

Lemma calculateSmooth_returns :
  is_Some (calculateSmooth samples start end_).
Proof.
  unfold calculateSmooth. destruct (Z.leb_spec end_ start); [done|].
  loop_returns start end_. destruct r. by destruct (_ >? _).
Qed.

Lemma calculateLoudness_returns mode :
  is_Some (calculateLoudness samples start end_ mode).
Proof.
  unfold calculateLoudness.
  repeat destruct (String.eqb _ _);
    auto using calculateLUFS_returns, calculateRMS_returns,
      calculatePeak_returns, calculateVU_returns,
      calculateDynamic_returns, calculateSmooth_returns.
Qed.

End Range.

(** An empty range gives 0 whatever its bounds, without a read. *)
Lemma calculateLoudness_empty start end_ mode :
  end_ <= start -> calculateLoudness samples start end_ mode = Some 0%float.
Proof.
  intros H. unfold calculateLoudness, calculateRMS, calculateLUFS,
    calculatePeak, calculateVU, calculateDynamic, calculateSmooth.
  destruct (Z.leb_spec end_ start); [|lia].
  by repeat destruct (String.eqb _ _).
Qed.

End CalculatorsReturn.

(** ** Filling the peaks, in any order

    Both paths run the same loop body over bucket indices.  The section
    takes the body as [fill] and assumes what [fill_bucket] is shown to do
    below: it stores the value [v b] of the bucket at index [b]. *)

Section Fill.

Variable B : Z.
Variable v : Z -> float.
Variable fill : Z -> list float -> option (list float).
Hypothesis fill_stores :
  forall b peaks, 0 <= b < B -> length peaks = Z.to_nat B ->
                  fill b peaks = Some (<[Z.to_nat b := v b]> peaks).

(** The peaks when every bucket has been computed. *)
Definition target : list float :=
  map (fun k => v (Z.of_nat k)) (seq 0 (Z.to_nat B)).

(** [peaks] holds the final value at every index outside [pend], the
    buckets still to be computed. *)
Definition agrees (pend : Z -> Prop) (peaks : list float) : Prop :=
  length peaks = Z.to_nat B /\
  forall b, 0 <= b < B -> ~ pend b -> peaks !! Z.to_nat b = Some (v b).

Lemma agrees_weaken (pend pend' : Z -> Prop) peaks :
  (forall b, 0 <= b < B -> pend b -> pend' b) ->
  agrees pend peaks -> agrees pend' peaks.
Proof. intros H [Hl Ha]. split; [done|]. intros b Hb Hp. apply Ha; auto. Qed.

Lemma agrees_make (pend : Z -> Prop) :
  (forall b, 0 <= b < B -> pend b) ->
  agrees pend (replicate (Z.to_nat B) 0%float).
Proof.
  intros H. split; [by rewrite length_replicate|].
  intros b Hb Hp. destruct Hp. auto.
Qed.

Lemma agrees_fill (pend pend' : Z -> Prop) peaks b0 :
  0 <= b0 < B ->
  (forall b, 0 <= b < B -> ~ pend' b -> b = b0 \/ ~ pend b) ->
  agrees pend peaks ->
  agrees pend' (<[Z.to_nat b0 := v b0]> peaks).
Proof.
  intros Hb0 Hp [Hl Ha]. split; [by rewrite length_insert|].
  intros b Hb Hnp. destruct (decide (b = b0)) as [->|Hne].
  - apply list_lookup_insert_eq. lia.
  - rewrite list_lookup_insert_ne by lia.
    destruct (Hp b Hb Hnp) as [?|?]; [done|auto].
Qed.

Lemma agrees_done peaks : agrees (fun _ => False) peaks -> peaks = target.
Proof.
  intros [Hl Ha]. apply list_eq. intros k. unfold target.
  rewrite list_lookup_fmap.
  destruct (decide (k < Z.to_nat B)%nat) as [Hk|Hk].
  - rewrite lookup_seq_lt by done. simpl.
    rewrite <- (Ha (Z.of_nat k)) by (tauto || lia).
    by rewrite Nat2Z.id.
  - rewrite lookup_seq_ge by lia. simpl.
    apply lookup_ge_None_2. lia.
Qed.

(** A loop over the buckets [lo .. hi-1] returns and leaves only the
    other pending buckets. *)
Lemma for_range_agrees (Q : Z -> Prop) lo hi peaks :
  0 <= lo -> hi <= B ->
  agrees (fun b => lo <= b < hi \/ Q b) peaks ->
  exists peaks', for_range lo hi fill peaks = Some peaks' /\ agrees Q peaks'.
Proof.
  intros Hlo Hhi Ha. destruct (Z.le_gt_cases hi lo) as [Hle|Hlt].
  - rewrite for_range_empty by done. exists peaks. split; [done|].
    eapply agrees_weaken; [|done]. simpl. intros b _ [?|?]; [lia|done].
  - destruct (for_range_inv
                (fun j t => agrees (fun b => j <= b < hi \/ Q b) t)
                fill lo hi peaks) as (peaks' & E & Ha'); [lia|done| |].
    + intros j t Hj [Hl Ht]. rewrite fill_stores by (done || lia).
      eexists. split; [done|].
      apply agrees_fill with (pend := fun b => j <= b < hi \/ Q b);
        [lia| |done].
      intros b Hb Hnp. destruct (decide (b = j)); [by left|right].
      intros [?|?]; apply Hnp; [left; lia|by right].
    + exists peaks'. split; [done|].
      eapply agrees_weaken; [|done]. simpl. intros b _ [?|?]; [lia|done].
Qed.

(** The sequential loop. *)
Lemma sequential_fill :
  0 <= B ->
  for_range 0 B fill (replicate (Z.to_nat B) 0%float) = Some target.
Proof.
  intros HB.
  destruct (for_range_agrees (fun _ => False) 0 B
              (replicate (Z.to_nat B) 0%float)) as (peaks' & -> & Ha);
    [lia|lia| |].
  - apply agrees_make. intros b Hb. by left.
  - f_equal. by apply agrees_done.
Qed.

(** *** Goroutines *)

Definition pending (ws : list worker) (b : Z) : Prop :=
  exists w, w ∈ ws /\ w_bucket w <= b < w_endBucket w.

Definition valid_worker (w : worker) : Prop :=
  0 <= w_bucket w /\ w_endBucket w <= B.

Lemma worker_step_agrees ws k w peaks :
  Forall valid_worker ws ->
  ws !! k = Some w ->
  agrees (pending ws) peaks ->
  exists w' peaks',
    worker_step fill w peaks = Some (w', peaks') /\
    Forall valid_worker (<[k := w']> ws) /\
    agrees (pending (<[k := w']> ws)) peaks'.
Proof.
  intros Hv Hk Ha. unfold worker_step.
  destruct (Forall_lookup_1 _ _ _ _ Hv Hk) as [Hv1 Hv2].
  destruct (Z.ltb_spec (w_bucket w) (w_endBucket w)) as [Hlt|Hge].
  - rewrite fill_stores by (lia || apply Ha). simpl.
    eexists _, _. split; [done|]. split.
    + apply Forall_insert; [done|]. split; simpl; lia.
    + apply agrees_fill with (pend := pending ws); [lia| |done].
      intros b Hb Hnp. destruct (decide (b = w_bucket w)); [by left|right].
      intros (w0 & Hin & Hr). apply Hnp.
      apply list_elem_of_lookup in Hin as [k0 Hk0].
      destruct (decide (k0 = k)) as [->|Hne].
      * assert (w0 = w) as -> by congruence.
        eexists. split.
        -- apply list_elem_of_lookup. exists k.
           apply list_lookup_insert_eq. by eapply lookup_lt_Some.
        -- simpl. lia.
      * exists w0. split; [|done].
        apply list_elem_of_lookup. exists k0.
        by rewrite list_lookup_insert_ne.
  - exists w, peaks. split; [done|].
    by rewrite list_insert_id.
Qed.

Lemma run_schedule_agrees sched : forall ws peaks,
  Forall valid_worker ws ->
  agrees (pending ws) peaks ->
  exists ws' peaks',
    run_schedule fill sched ws peaks = Some (ws', peaks') /\
    Forall valid_worker ws' /\
    agrees (pending ws') peaks'.
Proof.
  induction sched as [|k sched IH]; intros ws peaks Hv Ha; simpl.
  - by exists ws, peaks.
  - destruct (ws !! k) as [w|] eqn:Hk; [|by apply IH].
    destruct (worker_step_agrees ws k w peaks Hv Hk Ha)
      as (w' & peaks' & -> & Hv' & Ha'). simpl.
    by apply IH.
Qed.

Lemma wait_agrees ws : forall peaks,
  Forall valid_worker ws ->
  agrees (pending ws) peaks ->
  wait fill ws peaks = Some target.
Proof.
  induction ws as [|w ws IH]; intros peaks Hv Ha; simpl.
  - f_equal. apply agrees_done. eapply agrees_weaken; [|done].
    intros b _ (w & Hin & _). by apply elem_of_nil in Hin.
  - apply Forall_cons in Hv as [[Hv1 Hv2] Hv].
    destruct (for_range_agrees (pending ws) (w_bucket w) (w_endBucket w)
                peaks) as (peaks' & -> & Ha'); [done|done| |].
    + eapply agrees_weaken; [|done].
      intros b _ (w0 & Hin & Hr).
      apply elem_of_cons in Hin as [->|Hin]; [by left|right].
      by exists w0.
    + simpl. by apply IH.
Qed.

(** Whatever the interleaving, the goroutines leave the peaks of the
    sequential loop, provided that their ranges cover the buckets. *)
Lemma concurrent_fill sched ws :
  0 <= B ->
  Forall valid_worker ws ->
  (forall b, 0 <= b < B -> pending ws b) ->
  ('(ws', peaks) ←
     run_schedule fill sched ws (replicate (Z.to_nat B) 0%float);
   wait fill ws' peaks) = Some target.
Proof.
  intros HB Hv Hcover.
  destruct (run_schedule_agrees sched ws (replicate (Z.to_nat B) 0%float))
    as (ws' & peaks' & -> & Hv' & Ha'); [done|by apply agrees_make|].
  simpl. by apply wait_agrees.
Qed.

End Fill.

(** ** The partition of the buckets among the goroutines *)

Section Workers.

Variable buckets : Z.
Hypothesis Hbuckets : 0 < buckets <= Int.max_int.

(** [bucketsPerWorker] and [numWorkers] as [downsampleConcurrent] sets
    them from [runtime.NumCPU()]. *)
Definition worker_plan (numCPU : Z) : Z * Z :=
  if buckets / numCPU =? 0 then (1, buckets) else (buckets / numCPU, numCPU).

(** The buckets of the goroutine [k]: [bucketsPerWorker] of them from
    [k * bucketsPerWorker], and all that are left for the last one. *)
Definition worker_range (bpw nw k : Z) : Z * Z :=
  (k * bpw, if k =? nw - 1 then buckets else (k + 1) * bpw).

Definition in_worker_range (bpw nw k b : Z) : Prop :=
  fst (worker_range bpw nw k) <= b < snd (worker_range bpw nw k).

Variable numCPU : Z.
Hypothesis HnumCPU : 0 < numCPU <= Int.max_int.

Let bpw := fst (worker_plan numCPU).
Let nw := snd (worker_plan numCPU).

Lemma worker_plan_bounds :
  1 <= bpw /\ 1 <= nw <= Int.max_int /\ nw * bpw <= buckets.
Proof.
  subst bpw nw. unfold worker_plan.
  pose proof (Z.div_pos buckets numCPU ltac:(lia) ltac:(lia)).
  pose proof (Z.mul_div_le buckets numCPU ltac:(lia)).
  destruct (Z.eqb_spec (buckets / numCPU) 0); simpl; lia.
Qed.

Lemma spawn_eq k :
  0 <= k < nw ->
  spawn buckets bpw nw k
  = {| w_bucket := fst (worker_range bpw nw k);
       w_endBucket := snd (worker_range bpw nw k) |}.
Proof.
  intros Hk. destruct worker_plan_bounds as (H1 & H2 & H3).
  unfold spawn, worker_range. simpl.
  assert ((k + 1) * bpw <= buckets) by nia.
  rewrite Int_mul_id by (unfold Int.in_range, Int.min_int; nia).
  rewrite Int_add_id by (unfold Int.in_range, Int.min_int; nia).
  rewrite Int_sub_id by int_range.
  f_equal. destruct (k =? nw - 1); lia.
Qed.

(** Every bucket belongs to the range of exactly one goroutine. *)
Lemma worker_ranges_partition b :
  0 <= b < buckets ->
  exists k, (0 <= k < nw /\ in_worker_range bpw nw k b) /\
            forall k', 0 <= k' < nw -> in_worker_range bpw nw k' b ->
                       k' = k.
Proof.
  intros Hb. destruct worker_plan_bounds as (H1 & H2 & H3).
  unfold in_worker_range, worker_range. simpl.
  pose proof (Z.div_pos b bpw ltac:(lia) ltac:(lia)) as Hq0.
  pose proof (Z.mul_div_le b bpw ltac:(lia)) as Hq1.
  pose proof (Z.mul_succ_div_gt b bpw ltac:(lia)) as Hq2.
  destruct (Z.lt_ge_cases b ((nw - 1) * bpw)) as [Hlt|Hge].
  - exists (b / bpw).
    assert (b / bpw < nw - 1) by nia.
    split; [split; [lia|]|].
    + destruct (Z.eqb_spec (b / bpw) (nw - 1)); lia.
    + intros k' Hk'. destruct (Z.eqb_spec k' (nw - 1)); intros Hr; nia.
  - exists (nw - 1). split; [split; [lia|]|].
    + rewrite Z.eqb_refl. lia.
    + intros k' Hk'. destruct (Z.eqb_spec k' (nw - 1)); [done|].
      intros Hr. nia.
Qed.

(** The goroutines as [downsampleConcurrent] starts them. *)
Definition workers : list worker :=
  map (fun k => spawn buckets bpw nw (Z.of_nat k)) (seq 0 (Z.to_nat nw)).

Lemma workers_valid : Forall (valid_worker buckets) workers.
Proof.
  destruct worker_plan_bounds as (H1 & H2 & H3).
  unfold workers. apply Forall_fmap, Forall_forall.
  intros k Hk%elem_of_seq. simpl.
  rewrite spawn_eq by lia. unfold valid_worker, worker_range. simpl.
  split; [nia|]. destruct (Z.eqb_spec (Z.of_nat k) (nw - 1)); nia.
Qed.

Lemma workers_cover b : 0 <= b < buckets -> pending workers b.
Proof.
  intros Hb.
  destruct (worker_ranges_partition b Hb) as (k & (Hk & Hr) & _).
  exists (spawn buckets bpw nw k). split.
  - unfold workers. apply list_elem_of_fmap. exists (Z.to_nat k).
    split; [by rewrite Z2Nat.id by lia|]. apply elem_of_seq. lia.
  - rewrite spawn_eq by done. done.
Qed.

End Workers.

(** ** The bucket partition *)

(** [bucketSize = floor(N / B)], clamped up to 1 when it is 0. *)
Definition bucketSize (n buckets : Z) : Z :=
  if n / buckets =? 0 then 1 else n / buckets.

(** The value of the bucket at index [b]: the loudness of its range, and 0
    where the calculator does not return. *)
Definition bucket_value (samples : list Z) (buckets : Z)
    (mode : CalculationMode) (b : Z) : float :=
  let bs := bucketSize (len samples) buckets in
  default 0%float
    (calculateLoudness samples (b * bs) (Z.min ((b + 1) * bs) (len samples))
       mode).

Section Buckets.

Variable samples : list Z.
Variable buckets : Z.
Variable mode : CalculationMode.
Hypothesis Hlen : 0 < len samples <= Int.max_int.
Hypothesis Hbuckets : 0 < buckets <= Int.max_int.

Let n := len samples.
Let bs := bucketSize n buckets.

Lemma bucketSize_bounds : 1 <= bs /\ (buckets <= n -> buckets * bs <= n).
Proof.
  subst bs. unfold bucketSize.
  pose proof (Z.div_pos n buckets ltac:(subst n; lia) ltac:(lia)).
  pose proof (Z.mul_div_le n buckets ltac:(lia)).
  destruct (Z.eqb_spec (n / buckets) 0); split; lia.
Qed.

Lemma bucketSize_clamped : n < buckets -> bs = 1.
Proof.
  intros H. subst bs. unfold bucketSize.
  rewrite Z.div_small by (subst n; lia). done.
Qed.

Lemma samplesPerBucket_eq : samplesPerBucket n buckets = Some bs.
Proof.
  unfold samplesPerBucket. rewrite Int_div_nonneg by (subst n; lia). done.
Qed.

(** Inside the range of [int] no product or sum of [bucket_range] wraps. *)
Lemma bucket_range_eq b :
  0 <= b < buckets ->
  bucket_range n bs b = (b * bs, Z.min ((b + 1) * bs) n).
Proof.
  intros Hb. unfold bucket_range.
  destruct bucketSize_bounds as [H1 H2].
  assert ((b + 1) * bs <= Int.max_int) as Hmax.
  { destruct (Z.le_gt_cases buckets n) as [Hle|Hgt].
    - specialize (H2 Hle). subst n. nia.
    - rewrite bucketSize_clamped by done. lia. }
  rewrite Int_mul_id by (unfold Int.in_range, Int.min_int; nia).
  rewrite Int_add_id by (unfold Int.in_range, Int.min_int; nia).
  f_equal. destruct (Z.gtb_spec (b * bs + bs) n); lia.
Qed.

Lemma bucket_value_eq b :
  0 <= b < buckets ->
  calculateLoudness samples (b * bs) (Z.min ((b + 1) * bs) n) mode
  = Some (bucket_value samples buckets mode b).
Proof.
  intros Hb. unfold bucket_value. fold n bs.
  destruct bucketSize_bounds as [H1 _].
  destruct (calculateLoudness_returns samples ltac:(subst n; lia)
              (b * bs) (Z.min ((b + 1) * bs) n) ltac:(nia) ltac:(lia) mode)
    as [x ->]. done.
Qed.

Lemma fill_bucket_stores b peaks :
  0 <= b < buckets -> length peaks = Z.to_nat buckets ->
  fill_bucket samples bs mode b peaks
  = Some (<[Z.to_nat b := bucket_value samples buckets mode b]> peaks).
Proof.
  intros Hb Hl. unfold fill_bucket. fold n.
  rewrite bucket_range_eq by done. rewrite bucket_value_eq by done. simpl.
  unfold store, len. rewrite Hl.
  destruct (Z.ltb_spec b 0); [lia|].
  destruct (Z.leb_spec (Z.of_nat (Z.to_nat buckets)) b); [lia|]. done.
Qed.

Lemma make_float64_eq :
  make_float64 buckets = Some (replicate (Z.to_nat buckets) 0%float).
Proof. unfold make_float64. destruct (Z.ltb_spec buckets 0); [lia|done]. Qed.

Lemma downsample_eq :
  downsample samples buckets mode
  = Some (target buckets (bucket_value samples buckets mode)).
Proof.
  unfold downsample. fold n.
  destruct (Z.eqb_spec n 0); [subst n; lia|].
  destruct (Z.eqb_spec buckets 0); [lia|]. simpl.
  rewrite samplesPerBucket_eq, make_float64_eq. simpl.
  apply sequential_fill; [|lia]. apply fill_bucket_stores.
Qed.

Lemma downsampleConcurrent_eq numCPU sched :
  0 < numCPU <= Int.max_int ->
  downsampleConcurrent numCPU sched samples buckets mode
  = Some (target buckets (bucket_value samples buckets mode)).
Proof.
  intros HnumCPU. unfold downsampleConcurrent. fold n.
  destruct (Z.eqb_spec n 0); [subst n; lia|].
  destruct (Z.eqb_spec buckets 0); [lia|]. simpl.
  rewrite samplesPerBucket_eq. simpl.
  destruct (n <? 50000); [apply downsample_eq|].
  rewrite make_float64_eq. simpl.
  rewrite Int_div_nonneg by lia. simpl.
  change (if buckets / numCPU =? 0 then (1, buckets)
          else (buckets / numCPU, numCPU)) with (worker_plan buckets numCPU).
  rewrite (surjective_pairing (worker_plan buckets numCPU)).
  apply (concurrent_fill buckets (bucket_value samples buckets mode)
           (fill_bucket samples bs mode) fill_bucket_stores sched
           (workers buckets numCPU));
    [lia|by apply workers_valid|by apply workers_cover].
Qed.

End Buckets.

Lemma length_target B v : length (target B v) = Z.to_nat B.
Proof. unfold target. by rewrite length_map, length_seq. Qed.

Lemma lookup_target B v i :
  0 <= i < B -> target B v !! Z.to_nat i = Some (v i).
Proof.
  intros Hi. unfold target. rewrite list_lookup_fmap.
  rewrite lookup_seq_lt by lia. simpl. by rewrite Z2Nat.id by lia.
Qed.

(** With no sample or no bucket both paths return the nil slice. *)
Lemma downsample_nil samples buckets mode :
  len samples = 0 \/ buckets = 0 -> downsample samples buckets mode = Some [].
Proof.
  intros H. unfold downsample.
  destruct (Z.eqb_spec (len samples) 0); [done|].
  destruct (Z.eqb_spec buckets 0); [done|]. lia.
Qed.

Lemma downsampleConcurrent_nil numCPU sched samples buckets mode :
  len samples = 0 \/ buckets = 0 ->
  downsampleConcurrent numCPU sched samples buckets mode = Some [].
Proof.
  intros H. unfold downsampleConcurrent.
  destruct (Z.eqb_spec (len samples) 0); [done|].
  destruct (Z.eqb_spec buckets 0); [done|]. lia.
Qed.

(** A negative bucket count is a panic of [make] on both paths. *)
Lemma downsample_negative samples buckets mode :
  0 < len samples -> buckets < 0 -> downsample samples buckets mode = None.
Proof.
  intros Hn Hb. unfold downsample.
  destruct (Z.eqb_spec (len samples) 0); [lia|].
  destruct (Z.eqb_spec buckets 0); [lia|]. simpl.
  unfold samplesPerBucket, Int.div.
  destruct (Z.eqb_spec buckets 0); [lia|]. simpl.
  unfold make_float64. destruct (Z.ltb_spec buckets 0); [done|lia].
Qed.

Lemma downsampleConcurrent_negative numCPU sched samples buckets mode :
  0 < len samples -> buckets < 0 ->
  downsampleConcurrent numCPU sched samples buckets mode = None.
Proof.
  intros Hn Hb. unfold downsampleConcurrent.
  destruct (Z.eqb_spec (len samples) 0); [lia|].
  destruct (Z.eqb_spec buckets 0); [lia|]. simpl.
  unfold samplesPerBucket, Int.div.
  destruct (Z.eqb_spec buckets 0); [lia|]. simpl.
  destruct (_ <? 50000); [by apply downsample_negative|].
  unfold make_float64. destruct (Z.ltb_spec buckets 0); [done|lia].
Qed.

(** * The claims *)



(** C2. For every fixed sample sequence, bucket count B and mode, the
    concurrent path [downsampleConcurrent] returns exactly the peak sequence
    of the sequential path [downsample], whatever the number of CPUs and
    the interleaving of the goroutines: below 50,000 samples because it
    calls [downsample], and from 50,000 samples on because the ranges
    [bucketsPerWorker = floor(B / workers)] per goroutine, the last one
    taking the remainder, hold every bucket exactly once. *)
Theorem C2_concurrent_is_sequential numCPU sched samples buckets mode :
  len samples <= Int.max_int ->
  buckets <= Int.max_int ->
  0 < numCPU <= Int.max_int ->
  downsampleConcurrent numCPU sched samples buckets mode
  = downsample samples buckets mode /\
  (len samples < 50000 ->
   forall numCPU' sched',
     downsampleConcurrent numCPU' sched' samples buckets mode
     = downsample samples buckets mode) /\
  (50000 <= len samples -> 0 < buckets ->
   let '(bucketsPerWorker, numWorkers) := worker_plan buckets numCPU in
   bucketsPerWorker = buckets / numWorkers /\
   forall b, 0 <= b < buckets ->
     exists k,
       (0 <= k < numWorkers /\
        in_worker_range buckets bucketsPerWorker numWorkers k b) /\
       forall k', 0 <= k' < numWorkers ->
         in_worker_range buckets bucketsPerWorker numWorkers k' b -> k' = k).
Proof.
  intros Hn Hb Hc. split; [|split].
  - destruct (decide (len samples = 0 \/ buckets = 0)) as [Hz|Hnz].
    { by rewrite downsample_nil, downsampleConcurrent_nil. }
    assert (0 < len samples <= Int.max_int) as Hn' by (unfold len in *; lia).
    destruct (Z.lt_ge_cases buckets 0) as [Hneg|Hpos].
    { rewrite downsample_negative, downsampleConcurrent_negative by lia.
      done. }
    assert (0 < buckets <= Int.max_int) as Hb' by lia.
    rewrite (downsample_eq samples buckets mode Hn' Hb').
    by rewrite (downsampleConcurrent_eq samples buckets mode Hn' Hb' numCPU sched Hc).
  - intros Hsmall numCPU' sched'. unfold downsampleConcurrent.
    destruct (_ || _) eqn:Hz.
    { unfold downsample. by rewrite Hz. }
    destruct (Z.ltb_spec (len samples) 50000); [|lia].
    unfold samplesPerBucket, Int.div.
    apply orb_false_iff in Hz as [_ ->]. done.
  - intros _ Hpos.
    pose proof (worker_ranges_partition buckets ltac:(lia) numCPU Hc) as Hp.
    pose proof (worker_plan_bounds buckets ltac:(lia) numCPU Hc) as Hw.
    destruct (worker_plan buckets numCPU) as [bpw nw] eqn:E. simpl in *.
    split; [|done].
    unfold worker_plan in E.
    pose proof (Z.div_pos buckets numCPU ltac:(lia) ltac:(lia)).
    destruct (Z.eqb_spec (buckets / numCPU) 0); inversion E; subst.
    + by rewrite Z.div_same by lia.
    + done.
Qed.

Lemma C2_concurrent_is_sequential_witness :
  downsampleConcurrent 4 [2%nat; 0%nat; 2%nat] [1; -2; 3] 2 ModeRMS
  = downsample [1; -2; 3] 2 ModeRMS.
Proof.
  apply (C2_concurrent_is_sequential 4 [2%nat; 0%nat; 2%nat] [1; -2; 3] 2
           ModeRMS); repeat split; vm_compute; congruence.
Defined.





(** ** The waveform holder *)

(** Generation returns inside the range of [int]; with samples and
    buckets its peaks are as many as the bars. *)
Lemma generate_returns numCPU sched samples config :
  len samples <= Int.max_int ->
  0 <= Bars config <= Int.max_int ->
  0 < numCPU <= Int.max_int ->
  exists peaks,
    generate numCPU sched samples config = Some peaks /\
    (0 < len samples /\ 0 < Bars config -> len peaks = Bars config) /\
    (len samples = 0 \/ Bars config = 0 -> peaks = []).
Proof.
  intros Hn Hb Hc. unfold generate.
  destruct (decide (len samples = 0 \/ Bars config = 0)) as [Hz|Hnz].
  - exists []. rewrite downsample_nil, downsampleConcurrent_nil by done.
    split; [by destruct (Concurrent config)|]. split; [lia|done].
  - assert (0 < len samples <= Int.max_int) as Hn' by (unfold len in *; lia).
    assert (0 < Bars config <= Int.max_int) as Hb' by lia.
    rewrite (downsample_eq _ _ (Mode config) Hn' Hb').
    rewrite (downsampleConcurrent_eq _ _ (Mode config) Hn' Hb' numCPU sched Hc).
    eexists. split; [by destruct (Concurrent config)|]. split; [|tauto].
    intros _. unfold len. rewrite length_target. lia.
Qed.

(** [NewFromSamples] establishes [len(w.Peaks) == w.Config.Bars] when there
    are samples and bars. *)
Lemma NewFromSamples_invariant numCPU sched samples config :
  0 < len samples <= Int.max_int ->
  0 < Bars config <= Int.max_int ->
  0 < numCPU <= Int.max_int ->
  exists w,
    NewFromSamples numCPU sched samples (Some config) = Some w /\
    Config_ w = Some config /\
    len (Peaks w) = Bars config.
Proof.
  intros Hn Hb Hc.
  destruct (generate_returns numCPU sched samples config)
    as (peaks & E & Hl & _); [lia..|].
  unfold NewFromSamples. simpl. rewrite E. simpl.
  eexists. split; [done|]. split; [done|]. simpl. apply Hl. lia.
Qed.




(** Same mode, other bars: the peaks stay, the config goes. *)
Lemma UpdateConfig_same_mode numCPU sched w old new samples :
  Config_ w = Some old ->
  Mode new = Mode old ->
  UpdateConfig numCPU sched w (Some new) samples
  = Some {| Peaks := Peaks w; Config_ := Some new |}.
Proof.
  intros Hold Hm. unfold UpdateConfig. rewrite Hold. simpl.
  rewrite Hm, String.eqb_refl. done.
Qed.

(** C10. The invariant [len(w.Peaks) == w.Config.Bars] that
    [NewFromSamples] establishes is not kept by [UpdateConfig]: for some
    input, a call with a new config of the same mode and another number of
    bars leaves [Peaks] as it is and replaces [Config], and then
    [len(w.Peaks)] differs from [w.Config.Bars]. *)
Theorem C10_invariant_not_preserved :
  exists numCPU sched samples config config' w w',
    NewFromSamples numCPU sched samples (Some config) = Some w /\
    Config_ w = Some config /\
    len (Peaks w) = Bars config /\
    Mode config' = Mode config /\
    Bars config' <> Bars config /\
    UpdateConfig numCPU sched w (Some config') (Some samples) = Some w' /\
    Peaks w' = Peaks w /\
    Config_ w' = Some config' /\
    len (Peaks w') <> Bars config'.
Proof.
  set (samples := [100; -200; 300; 400]).
  set (config := {| Width := 500; Height := 80; Bars := 2; BarSpacing := 2;
                    BarColor := "#3B82F6"; CornerRadius := 8%float;
                    Concurrent := true; Mode := ModePeak |}).
  set (config' := {| Width := 500; Height := 80; Bars := 4; BarSpacing := 2;
                     BarColor := "#3B82F6"; CornerRadius := 8%float;
                     Concurrent := true; Mode := ModePeak |}).
  destruct (NewFromSamples_invariant 4 [] samples config)
    as (w & Hnew & Hcfg & Hlen); [split; vm_compute; congruence..|].
  exists 4, [], samples, config, config', w.
  eexists. split; [done|]. split; [done|]. split; [done|].
  split; [done|]. split; [done|].
  split. { by apply UpdateConfig_same_mode with (old := config). }
  simpl. split; [done|]. split; [done|]. rewrite Hlen. done.
Qed.

(** ** Facts on binary64 values *)

Lemma digits2_pos_bound (m : positive) :
  2 ^ (Z.pos (digits2_pos m) - 1) <= Z.pos m < 2 ^ Z.pos (digits2_pos m).
Proof.
  induction m as [m IH|m IH|]; simpl digits2_pos.
  - rewrite Pos2Z.inj_succ. replace (Z.succ (Z.pos (digits2_pos m)) - 1)
      with (Z.succ (Z.pos (digits2_pos m) - 1)) by lia.
    rewrite !Z.pow_succ_r by lia. lia.
  - rewrite Pos2Z.inj_succ. replace (Z.succ (Z.pos (digits2_pos m)) - 1)
      with (Z.succ (Z.pos (digits2_pos m) - 1)) by lia.
    rewrite !Z.pow_succ_r by lia. lia.
  - simpl. lia.
Qed.

(** The mantissa and the exponent of a finite binary64 value. *)
Lemma valid_binary_bounds s m e :
  valid_binary (S754_finite s m e) = true ->
  -1074 <= e <= 971 /\ Z.pos m < 2 ^ 53 /\ (-1074 < e -> 2 ^ 52 <= Z.pos m).
Proof.
  unfold valid_binary, bounded, canonical_mantissa, fexp, SpecFloat.emin.
  intros [H1 H2]%andb_true_iff.
  apply Z.eqb_eq in H1. apply Z.leb_le in H2.
  change prec with 53 in *. change emax with 1024 in *.
  pose proof (digits2_pos_bound m) as [Hlo Hhi].
  assert (Z.pos (digits2_pos m) <= 53) as Hd by lia.
  split; [lia|]. split.
  - eapply Z.lt_le_trans; [exact Hhi|]. apply Z.pow_le_mono_r; lia.
  - intros He. assert (Z.pos (digits2_pos m) = 53) as Hd' by lia.
    rewrite Hd' in Hlo. exact Hlo.
Qed.

Lemma Prim2SF_bounds x s m e :
  Prim2SF x = S754_finite s m e ->
  -1074 <= e <= 971 /\ Z.pos m < 2 ^ 53 /\ (-1074 < e -> 2 ^ 52 <= Z.pos m).
Proof.
  intros E. apply (valid_binary_bounds s). rewrite <- E. apply Prim2SF_valid.
Qed.

(** The bit pattern is a [uint64]; the sign is its top bit. *)
Lemma bits_range x : 0 <= F64.bits x < 2 ^ 64.
Proof.
  unfold F64.bits. destruct (Prim2SF x) as [s|s| |s m e] eqn:E.
  - destruct s; simpl; lia.
  - destruct s; simpl; lia.
  - lia.
  - destruct (Prim2SF_bounds x s m e E) as (He & Hm & Hn).
    destruct (Z.ltb_spec (Z.pos m) (2 ^ 52)); destruct s; simpl F64.sign_bit;
      try lia.
    all: assert (-1074 < e \/ e = -1074) as [? | ->] by lia; nia.
Qed.

Lemma bits_positive x : (0 <? x)%float = true -> 0 <= F64.bits x < 2 ^ 63.
Proof.
  rewrite ltb_spec. unfold F64.bits.
  change (Prim2SF 0) with (S754_zero false).
  destruct (Prim2SF x) as [s|s| |s m e] eqn:E.
  - destruct s; simpl SFltb; intros H; discriminate H.
  - destruct s; simpl SFltb; intros H; [discriminate H|].
    vm_compute. split; congruence.
  - simpl SFltb. intros H; discriminate H.
  - destruct s; simpl SFltb; intros H; [discriminate H|].
    destruct (Prim2SF_bounds x false m e E) as (He & Hm & Hn).
    destruct (Z.ltb_spec (Z.pos m) (2 ^ 52)); simpl F64.sign_bit; [lia|].
    assert (-1074 < e \/ e = -1074) as [? | ->] by lia; nia.
Qed.

Lemma positive_not_le_zero x :
  (0 <? x)%float = true -> (x <=? 0)%float = false.
Proof.
  rewrite ltb_spec, leb_spec.
  change (Prim2SF 0) with (S754_zero false).
  destruct (Prim2SF x) as [s|s| |s m e]; try destruct s; simpl;
    intros H; first [discriminate H | reflexivity].
Qed.

(** ** fastSqrt *)

(** The specification's words: reinterpret the bits of [x] as an unsigned
    64-bit integer, compute [magic - (bits >> 1)] with
    [magic = 0x5fe6eb50c7b537a9], reinterpret the result as a double [y],
    refine once by [y <- y * (1.5 - 0.5 * x * y * y)], return [1 / y]. *)
Definition fastSqrt_spec (x : float) : float :=
  let bits := F64.bits x in
  let magic := 0x5fe6eb50c7b537a9 in
  let y := F64.frombits (magic - Z.shiftr bits 1) in
  let y := (y * (1.5 - 0.5 * x * y * y))%float in
  (1 / y)%float.

(** For a positive [x] the subtraction from the magic number borrows
    nothing: the [uint64] difference is the difference of the integers. *)
Lemma magic_sub_no_wrap x :
  (0 <? x)%float = true ->
  F64.uint64_sub 0x5fe6eb50c7b537a9 (Z.shiftr (F64.bits x) 1)
  = 0x5fe6eb50c7b537a9 - Z.shiftr (F64.bits x) 1.
Proof.
  intros Hx. pose proof (bits_positive x Hx) as Hb.
  unfold F64.uint64_sub. rewrite Z.shiftr_div_pow2 by lia.
  change (2 ^ 1) with 2.
  pose proof (Z.div_pos (F64.bits x) 2 ltac:(lia) ltac:(lia)).
  pose proof (Z.div_lt_upper_bound (F64.bits x) 2 (2 ^ 62) ltac:(lia)
                ltac:(lia)).
  apply Z.mod_small. lia.
Qed.

(** C7. [fastSqrt] returns 0 for every input [x <= 0]; for every [x > 0]
    it returns exactly the value obtained by reinterpreting the IEEE-754
    bits of [x] as a 64-bit unsigned integer, computing
    [0x5fe6eb50c7b537a9 - (bits >> 1)], reinterpreting back as a double
    [y], refining once via [y <- y * (1.5 - 0.5 * x * y^2)], and returning
    [1 / y]. *)
Theorem C7_fastSqrt :
  (forall x, (x <=? 0)%float = true -> fastSqrt x = 0%float) /\
  (forall x, (0 <? x)%float = true -> fastSqrt x = fastSqrt_spec x).
Proof.
  split; intros x Hx; unfold fastSqrt.
  - by rewrite Hx.
  - rewrite (positive_not_le_zero x Hx). unfold fastSqrt_spec.
    by rewrite (magic_sub_no_wrap x Hx).
Qed.

Lemma C7_fastSqrt_witness :
  fastSqrt (-3)%float = 0%float /\
  fastSqrt 4%float = fastSqrt_spec 4%float /\
  fastSqrt 4%float = 2.0033894490404331%float.
Proof.
  destruct C7_fastSqrt as [Hle Hgt].
  split; [by apply Hle|]. split; [by apply Hgt|]. reflexivity.
Defined.

(** ** Arithmetic of binary64 values *)

Lemma SFmul_comm p e x y : SFmul p e x y = SFmul p e y x.
Proof.
  destruct x as [sx|sx| |sx mx ex], y as [sy|sy| |sy my ey]; simpl;
    rewrite ?(xorb_comm sx sy); try done.
  by rewrite Pos.mul_comm, Z.add_comm.
Qed.

Lemma float_mul_comm (x y : float) : (x * y = y * x)%float.
Proof.
  apply Prim2SF_inj. rewrite !mul_spec. apply SFmul_comm.
Qed.

(** A float whose specification is known. *)
Lemma Prim2SF_eq x sf : Prim2SF x = sf -> x = SF2Prim sf.
Proof. intros <-. by rewrite SF2Prim_Prim2SF. Qed.

(** [if val < 0 { val = -val }] is the absolute value, but for the
    negative zero, which is not below 0 and stays. *)
Lemma negate_if_negative_abs v :
  negate_if_negative v = abs v \/ v = neg_zero.
Proof.
  unfold negate_if_negative. rewrite ltb_spec.
  change (Prim2SF 0) with (S754_zero false).
  destruct (Prim2SF v) as [s|s| |s m e] eqn:E.
  - destruct s; simpl.
    + right. by apply Prim2SF_eq in E.
    + left. apply Prim2SF_inj. by rewrite abs_spec, E.
  - destruct s; simpl; left; apply Prim2SF_inj;
      by rewrite ?opp_spec, abs_spec, E.
  - left. apply Prim2SF_inj. by rewrite abs_spec, E.
  - destruct s; simpl; left; apply Prim2SF_inj;
      by rewrite ?opp_spec, abs_spec, E.
Qed.

(** [samples[lo:hi]] *)
Definition slice (samples : list Z) (lo hi : Z) : list Z :=
  take (Z.to_nat (hi - lo)) (drop (Z.to_nat lo) samples).

Lemma length_slice samples lo hi :
  0 <= lo <= hi -> hi <= len samples -> len (slice samples lo hi) = hi - lo.
Proof.
  intros H1 H2. unfold slice, len in *.
  rewrite length_take, length_drop. lia.
Qed.

(** A loop that reads one sample for each iteration is a fold over the
    slice of its range. *)
Lemma for_range_fold {St} (f : float -> St -> St) body samples lo hi (s : St) :
  (forall i t, body i t = v ← normalized samples i; Some (f v t)) ->
  0 <= lo <= hi -> hi <= len samples ->
  for_range lo hi body s
  = Some (fold_left (fun t z => f (F64.of_int z * invMaxSample)%float t)
            (slice samples lo hi) s).
Proof.
  intros Hbody Hlo Hhi. unfold for_range, slice.
  remember (Z.to_nat (hi - lo)) as n eqn:Hn.
  revert lo s Hlo Hn. induction n as [|n IH]; intros lo s Hlo Hn; [done|].
  simpl for_loop. rewrite Hbody. unfold normalized, sample_at.
  destruct (Z.ltb_spec lo 0); [lia|].
  destruct (lookup_lt_is_Some_2 samples (Z.to_nat lo)) as [z Hz].
  { unfold len in Hhi. lia. }
  rewrite Hz. simpl. rewrite (drop_S _ _ _ Hz). simpl.
  rewrite IH by lia. by replace (Z.to_nat (lo + 1)) with (S (Z.to_nat lo)) by lia.
Qed.

(** ** calculateLUFS *)

(** The specification's words, over the samples of the range.  The
    pre-emphasis [filtered = sample - 0.85 * prevSample], with [prevSample]
    seeded at 0 and updated at every step; the magnitude [m] of [filtered]
    scaled as [m^2 * (1 + 0.5 * m)] and summed. *)
Definition lufs_step (acc : float * float) (s : Z) : float * float :=
  let '(sum, prevSample) := acc in
  let sample := (F64.of_int s * invMaxSample)%float in
  let filtered := (sample - 0.85 * prevSample)%float in
  let m := abs filtered in
  ((sum + m * m * (1 + 0.5 * m))%float, sample).

(** The post-curve on the approximate square root [v] of the mean. *)
Definition lufs_curve (v : float) : float :=
  if (0.1 <? v)%float then (v * v * 2)%float else (v * 0.5)%float.

Definition lufs_spec (range : list Z) : float :=
  let sum := fst (fold_left lufs_step range (0%float, 0%float)) in
  let v := fastSqrt (sum / F64.of_int (len range)) in
  lufs_curve v.

Lemma fold_left_pointwise {A B} (f g : A -> B -> A) l : forall a,
  (forall a b, f a b = g a b) -> fold_left f l a = fold_left g l a.
Proof.
  induction l as [|b l IH]; intros a H; simpl; [done|].
  rewrite H. by apply IH.
Qed.

(** The scaled magnitude of the code is the one of the specification. *)
Lemma lufs_scaled_eq (filtered : float) :
  (let a := negate_if_negative filtered in a * a * (1 + a * 0.5))%float
  = (let m := abs filtered in m * m * (1 + 0.5 * m))%float.
Proof.
  simpl. destruct (negate_if_negative_abs filtered) as [->| ->].
  - by rewrite (float_mul_comm (abs filtered) 0.5).
  - reflexivity.
Qed.

(** For every non-empty range [start, end), [calculateLUFS] applies
    the one-pole pre-emphasis [filtered = sample - 0.85 * prevSample], with
    [prevSample] seeded at 0 and updated at every step, sums the scaled
    magnitudes [m^2 * (1 + 0.5 * m)], takes the approximate square root [v]
    of the mean, and returns [v^2 * 2] when [v > 0.1] and [v * 0.5]
    otherwise, with exactly that threshold and branch. *)
Theorem calculateLUFS_spec samples start end_ :
  len samples <= Int.max_int ->
  0 <= start < end_ ->
  end_ <= len samples ->
  calculateLUFS samples start end_
  = Some (lufs_spec (slice samples start end_)).
Proof.
  intros Hlen Hstart Hend. unfold calculateLUFS.
  destruct (Z.leb_spec end_ start); [lia|].
  rewrite Int_sub_id by int_range.
  rewrite (for_range_fold
             (fun v '(sum, prevSample) =>
                let filtered := (v - 0.85 * prevSample)%float in
                let a := negate_if_negative filtered in
                ((sum + a * a * (1 + a * 0.5))%float, v))
             _ samples start end_)
    by (lia || by intros i [sum prev]).
  simpl. unfold lufs_spec.
  rewrite length_slice by lia.
  replace (fold_left _ (slice samples start end_) (0%float, 0%float))
    with (fold_left lufs_step (slice samples start end_) (0%float, 0%float)).
  - destruct (fold_left lufs_step _ _) as [sum prev]. simpl.
    destruct (Z.gtb_spec (end_ - start) 0); [done|lia].
  - apply fold_left_pointwise. intros [sum prev] z. unfold lufs_step.
    f_equal. f_equal. symmetry. apply lufs_scaled_eq.
Qed.

Lemma calculateLUFS_spec_witness :
  calculateLUFS [100; -200; 300; 7] 1 3
  = Some (lufs_spec (slice [100; -200; 300; 7] 1 3)).
Proof.
  apply (calculateLUFS_spec [100; -200; 300; 7] 1 3);
    repeat split; vm_compute; congruence.
Defined.


(** * Further properties of the code *)

(** ** Reads outside the slice *)

(** A loop panics when its body panics at some index of its range, whatever
    the state it is entered with. *)
Lemma for_loop_panics {S} (body : Z -> S -> option S) j :
  (forall t, body j t = None) ->
  forall n i s, i <= j < i + Z.of_nat n -> for_loop n i body s = None.
Proof.
  intros Hj. induction n as [|n IH]; intros i s Hi; [lia|].
  simpl. destruct (body i s) as [t|] eqn:E; [|done]. simpl.
  destruct (decide (i = j)) as [->|Hne]; [by rewrite Hj in E|].
  apply IH. lia.
Qed.

Lemma for_range_panics {S} (body : Z -> S -> option S) j lo hi s :
  (forall t, body j t = None) -> lo <= j < hi ->
  for_range lo hi body s = None.
Proof.
  intros Hj Hr. unfold for_range. apply (for_loop_panics body j Hj). lia.
Qed.

Lemma normalized_out_of_range (samples : list Z) i :
  i < 0 \/ len samples <= i -> normalized samples i = None.
Proof.
  intros H. unfold normalized. by rewrite sample_at_out_of_range.
Qed.

(** A non-empty range that is not inside the slice holds an index that is
    outside the slice. *)
Lemma out_of_range_index (samples : list Z) start end_ :
  start < end_ -> start < 0 \/ len samples < end_ ->
  exists j, start <= j < end_ /\ (j < 0 \/ len samples <= j).
Proof.
  intros Hlt [Hneg|Hbig].
  - exists start. lia.
  - destruct (Z.le_gt_cases (len samples) start).
    + exists start. lia.
    + exists (len samples). lia.
Qed.

(** The unrolled loop reads the indices [i .. i + 8n - 1]. *)
Lemma rms_unrolled_panics (samples : list Z) j n : forall i sum,
  Int.in_range i -> Int.in_range (i + 8 * Z.of_nat n) ->
  i <= j < i + 8 * Z.of_nat n -> j < 0 \/ len samples <= j ->
  rms_unrolled n samples i sum = None.
Proof.
  induction n as [|n IH]; intros i sum Hi Hn Hj Hout; [lia|].
  cbn [rms_unrolled]. rewrite !Int_add_id by int_range.
  destruct (decide (j < i + 8)) as [Hlt|Hge].
  - assert (j = i \/ j = i + 1 \/ j = i + 2 \/ j = i + 3 \/ j = i + 4 \/
            j = i + 5 \/ j = i + 6 \/ j = i + 7) as Hcase by lia.
    pose proof (normalized_out_of_range samples j Hout) as Hnone.
    repeat (destruct Hcase as [->|Hcase]; [rewrite Hnone|]);
      [..|rewrite Hcase in Hnone; rewrite Hnone];
      repeat first [done | destruct (normalized samples _) as [?|]; simpl].
  - repeat (destruct (normalized samples _) as [?|]; simpl; try done).
    apply IH; [int_range|int_range|lia|done].
Qed.

Lemma rms_unrolled_index (samples : list Z) n : forall i sum i' sum',
  Int.in_range i -> Int.in_range (i + 8 * Z.of_nat n) ->
  rms_unrolled n samples i sum = Some (i', sum') ->
  i' = i + 8 * Z.of_nat n.
Proof.
  induction n as [|n IH]; intros i sum i' sum' Hi Hn; cbn [rms_unrolled].
  - intros [= <- _]. lia.
  - repeat (destruct (normalized samples _) as [?|]; simpl; try done).
    rewrite Int_add_id by int_range. intros E.
    apply IH in E; [lia|int_range|].
    by replace (i + 8 + 8 * Z.of_nat n) with (i + 8 * Z.of_nat (S n)) by lia.
Qed.

Section OutOfRange.

Variable samples : list Z.
Variables start end_ : Z.
Hypothesis Hstart : Int.in_range start.
Hypothesis Hend : Int.in_range end_.
Hypothesis Hnonempty : start < end_.
Hypothesis Hout : start < 0 \/ len samples < end_.

(** A loop over the range panics when every path of its body reads
    [samples[i]] first. *)
Ltac loop_panics :=
  destruct (out_of_range_index samples start end_ Hnonempty Hout)
    as (j & Hj & Hjout);
  match goal with
  | |- context [for_range start end_ ?body ?s] =>
      rewrite (for_range_panics body j start end_ s); [done| |done];
      intros t; try destruct t;
      by rewrite (normalized_out_of_range samples j Hjout)
  end.

Lemma calculateLUFS_panics : calculateLUFS samples start end_ = None.
Proof.
  unfold calculateLUFS. destruct (Z.leb_spec end_ start); [lia|].
  loop_panics.
Qed.

Lemma calculatePeak_panics : calculatePeak samples start end_ = None.
Proof.
  unfold calculatePeak. destruct (Z.leb_spec end_ start); [lia|].
  loop_panics.
Qed.

Lemma calculateVU_panics : calculateVU samples start end_ = None.
Proof.
  unfold calculateVU. destruct (Z.leb_spec end_ start); [lia|].
  loop_panics.
Qed.

Lemma calculateDynamic_panics : calculateDynamic samples start end_ = None.
Proof.
  unfold calculateDynamic. destruct (Z.leb_spec end_ start); [lia|].
  loop_panics.
Qed.

Lemma calculateSmooth_panics : calculateSmooth samples start end_ = None.
Proof.
  unfold calculateSmooth. destruct (Z.leb_spec end_ start); [lia|].
  loop_panics.
Qed.

Lemma calculateRMS_panics : calculateRMS samples start end_ = None.
Proof.
  unfold calculateRMS. destruct (Z.leb_spec end_ start); [lia|].
  destruct (decide (start < 0)) as [Hneg|Hpos].
  - (* the first read, in either loop, is at [start] *)
    pose proof (normalized_out_of_range samples start (or_introl Hneg)) as E.
    destruct (rms_groups start end_) as [|n]; simpl.
    + rewrite (for_range_panics _ start); [done| |lia].
      intros t. by rewrite E.
    + by rewrite E.
  - assert (len samples < end_) as Hbig by lia.
    assert (0 <= len samples) by (unfold len; lia).
    assert (Z.of_nat (rms_groups start end_) = (end_ - 8 - start) / 8 + 1
            /\ 0 <= (end_ - 8 - start) / 8 + 1) as [Hg Hg0].
    { unfold rms_groups. rewrite Int_sub_id by int_range.
      assert (-1 <= (end_ - 8 - start) / 8); [|lia].
      apply Z.div_le_lower_bound; lia. }
    pose proof (Z.mul_div_le (end_ - 8 - start) 8 ltac:(lia)) as Hle.
    destruct (out_of_range_index samples start end_ Hnonempty Hout)
      as (j & Hj & Hjout).
    destruct (rms_unrolled _ samples start 0%float) as [[i sum]|] eqn:E;
      [|done]. simpl.
    assert (Int.in_range (start + 8 * Z.of_nat (rms_groups start end_)))
      as Hr by int_range.
    pose proof (rms_unrolled_index samples _ start _ _ _ Hstart Hr E) as ->.
    destruct (decide (j < start + 8 * Z.of_nat (rms_groups start end_)))
      as [Hlt|Hge].
    + rewrite (rms_unrolled_panics samples j) in E;
        [done|done|done|lia|done].
    + rewrite (for_range_panics _ j); [done| |lia].
      intros t. by rewrite (normalized_out_of_range samples j Hjout).
Qed.

End OutOfRange.

Lemma calculateLoudness_panics samples start end_ mode :
  Int.in_range start -> Int.in_range end_ ->
  start < end_ -> start < 0 \/ len samples < end_ ->
  calculateLoudness samples start end_ mode = None.
Proof.
  intros Hs He Hne Hout. unfold calculateLoudness.
  repeat destruct (String.eqb _ _);
    auto using calculateLUFS_panics, calculateRMS_panics,
      calculatePeak_panics, calculateVU_panics, calculateDynamic_panics,
      calculateSmooth_panics.
Qed.

(** Whatever the mode, [calculateLoudness] returns exactly when the range
    is empty or lies inside the slice; on any other range it panics with
    an index out of range. *)
Theorem calculateLoudness_returns_iff samples start end_ mode :
  len samples <= Int.max_int ->
  Int.in_range start -> Int.in_range end_ ->
  is_Some (calculateLoudness samples start end_ mode) <->
  end_ <= start \/ (0 <= start /\ end_ <= len samples).
Proof.
  intros Hlen Hs He. split.
  - intros Hsome.
    destruct (Z.le_gt_cases end_ start) as [Hle|Hgt]; [by left|right].
    destruct (decide (0 <= start /\ end_ <= len samples)) as [?|Hout];
      [done|].
    rewrite calculateLoudness_panics in Hsome by (done || lia).
    by destruct Hsome.
  - intros [Hle|[H0 Hend]].
    + by rewrite calculateLoudness_empty.
    + by apply calculateLoudness_returns.
Qed.

Lemma calculateLoudness_returns_iff_witness :
  is_Some (calculateLoudness [1; 2; 3] 1 3 ModeRMS) <->
  3 <= 1 \/ (0 <= 1 /\ 3 <= len [1; 2; 3]).
Proof.
  apply (calculateLoudness_returns_iff [1; 2; 3] 1 3 ModeRMS);
    repeat split; vm_compute; congruence.
Defined.

(** ** Only the samples of the range are read *)

Lemma for_range_ext {St} (body body' : Z -> St -> option St) lo hi s :
  (forall j t, lo <= j < hi -> body j t = body' j t) ->
  for_range lo hi body s = for_range lo hi body' s.
Proof.
  intros H. unfold for_range. apply for_loop_ext.
  intros j t Hj. apply H. lia.
Qed.

Section Local.

Variables samples samples' : list Z.
Variables start end_ : Z.
Hypothesis Hstart : Int.in_range start.
Hypothesis Hend : Int.in_range end_.
Hypothesis Hagree :
  forall i, start <= i < end_ -> sample_at samples i = sample_at samples' i.

Lemma normalized_local i :
  start <= i < end_ -> normalized samples i = normalized samples' i.
Proof. intros Hi. unfold normalized. by rewrite Hagree. Qed.

Ltac loop_local :=
  match goal with
  | |- context [for_range ?lo end_ ?body ?s] =>
      erewrite (for_range_ext body _ lo end_ s);
      [reflexivity|];
      intros j t Hj; try destruct t; by rewrite (normalized_local j) by lia
  end.

Lemma calculateLUFS_local :
  calculateLUFS samples start end_ = calculateLUFS samples' start end_.
Proof.
  unfold calculateLUFS. destruct (end_ <=? start); [done|].
  f_equal. loop_local.
Qed.

Lemma calculatePeak_local :
  calculatePeak samples start end_ = calculatePeak samples' start end_.
Proof.
  unfold calculatePeak. destruct (end_ <=? start); [done|]. loop_local.
Qed.

Lemma calculateVU_local :
  calculateVU samples start end_ = calculateVU samples' start end_.
Proof.
  unfold calculateVU. destruct (end_ <=? start); [done|].
  f_equal. loop_local.
Qed.

Lemma calculateSmooth_local :
  calculateSmooth samples start end_ = calculateSmooth samples' start end_.
Proof.
  unfold calculateSmooth. destruct (end_ <=? start); [done|].
  f_equal. loop_local.
Qed.

Lemma calculateDynamic_local :
  calculateDynamic samples start end_ = calculateDynamic samples' start end_.
Proof.
  unfold calculateDynamic. destruct (end_ <=? start); [done|].
  assert (forall s : float,
            for_range start end_
              (fun i mean =>
                 val ← normalized samples i;
                 Some (mean + negate_if_negative val)%float) s
            = for_range start end_
                (fun i mean =>
                   val ← normalized samples' i;
                   Some (mean + negate_if_negative val)%float) s) as ->.
  { intros s. apply for_range_ext. intros j t Hj.
    by rewrite (normalized_local j). }
  destruct (for_range start end_ _ 0%float) as [mean|]; [|done]. simpl.
  f_equal. loop_local.
Qed.

Lemma rms_unrolled_local n : forall i sum,
  start <= i -> i + 8 * Z.of_nat n <= end_ ->
  rms_unrolled n samples i sum = rms_unrolled n samples' i sum.
Proof.
  induction n as [|n IH]; intros i sum Hi Hn; [done|].
  cbn [rms_unrolled]. rewrite !Int_add_id by int_range.
  rewrite !(normalized_local _) by lia.
  repeat (destruct (normalized samples' _) as [?|]; simpl; try done).
  apply IH; lia.
Qed.

Lemma calculateRMS_local :
  calculateRMS samples start end_ = calculateRMS samples' start end_.
Proof.
  unfold calculateRMS. destruct (Z.leb_spec end_ start); [done|].
  destruct (decide (start < 0)) as [Hneg|Hpos].
  - (* both panic at the first read *)
    pose proof (calculateRMS_panics samples start end_ Hstart Hend
                  ltac:(lia) (or_introl Hneg)) as E.
    pose proof (calculateRMS_panics samples' start end_ Hstart Hend
                  ltac:(lia) (or_introl Hneg)) as E'.
    unfold calculateRMS in E, E'.
    destruct (Z.leb_spec end_ start); [lia|]. by rewrite E, E'.
  - assert (Z.of_nat (rms_groups start end_) = (end_ - 8 - start) / 8 + 1
            /\ 0 <= (end_ - 8 - start) / 8 + 1) as [Hg Hg0].
    { unfold rms_groups. rewrite Int_sub_id by int_range.
      assert (-1 <= (end_ - 8 - start) / 8); [|lia].
      apply Z.div_le_lower_bound; lia. }
    pose proof (Z.mul_div_le (end_ - 8 - start) 8 ltac:(lia)) as Hle.
    rewrite (rms_unrolled_local (rms_groups start end_)) by lia.
    destruct (rms_unrolled _ samples' start 0%float) as [[i sum]|] eqn:E;
      [|done]. simpl.
    assert (Int.in_range (start + 8 * Z.of_nat (rms_groups start end_)))
      as Hr by int_range.
    pose proof (rms_unrolled_index samples' _ start _ _ _ Hstart Hr E) as ->.
    f_equal. apply for_range_ext. intros j t Hj.
    by rewrite (normalized_local j) by lia.
Qed.

Lemma calculateLoudness_local mode :
  calculateLoudness samples start end_ mode
  = calculateLoudness samples' start end_ mode.
Proof.
  unfold calculateLoudness.
  repeat destruct (String.eqb _ _);
    auto using calculateLUFS_local, calculateRMS_local, calculatePeak_local,
      calculateVU_local, calculateDynamic_local, calculateSmooth_local.
Qed.

End Local.

Lemma target_ext B (v v' : Z -> float) :
  (forall b, 0 <= b < B -> v b = v' b) -> target B v = target B v'.
Proof.
  intros H. unfold target. apply map_ext_in. intros k Hk.
  apply in_seq in Hk. apply H. lia.
Qed.

(** [downsample] reads the first [B * bucketSize] samples only: the up to
    [B - 1] samples after them change no peak. *)
Theorem downsample_ignores_tail samples samples' buckets mode :
  0 < len samples <= Int.max_int ->
  len samples' = len samples ->
  0 < buckets <= Int.max_int ->
  (forall i, 0 <= i < buckets * bucketSize (len samples) buckets ->
             sample_at samples i = sample_at samples' i) ->
  downsample samples buckets mode = downsample samples' buckets mode.
Proof.
  intros Hn Hn' Hb Hagree.
  rewrite (downsample_eq samples buckets mode Hn Hb).
  assert (0 < len samples' <= Int.max_int) as Hn2 by (rewrite Hn'; exact Hn).
  rewrite (downsample_eq samples' buckets mode Hn2 Hb).
  apply (f_equal Some), target_ext. intros b Hb'. unfold bucket_value.
  rewrite Hn'.
  destruct (bucketSize_bounds samples buckets Hn Hb) as [H1 H2].
  set (bs := bucketSize (len samples) buckets) in *.
  assert (b * bs <= Int.max_int /\ (b + 1) * bs <= buckets * bs) as [Hm Hm'].
  { split; [|nia].
    destruct (Z.le_gt_cases buckets (len samples)) as [Hle|Hgt].
    - specialize (H2 Hle). nia.
    - subst bs. rewrite (bucketSize_clamped samples buckets Hn Hgt). lia. }
  apply (f_equal (default 0%float)), calculateLoudness_local.
  - unfold Int.in_range, Int.min_int. nia.
  - unfold Int.in_range, Int.min_int. lia.
  - intros i Hi. apply Hagree. nia.
Qed.

Lemma downsample_ignores_tail_witness :
  downsample [10; 20; 30; 40; 50] 2 ModeRMS
  = downsample [10; 20; 30; 40; -999] 2 ModeRMS.
Proof.
  apply (downsample_ignores_tail [10; 20; 30; 40; 50] [10; 20; 30; 40; -999]
           2 ModeRMS).
  - split; vm_compute; congruence.
  - reflexivity.
  - split; vm_compute; congruence.
  - intros i Hi. change (bucketSize (len [10; 20; 30; 40; 50]) 2) with 2 in Hi.
    assert (i = 0 \/ i = 1 \/ i = 2 \/ i = 3) as [->|[->|[->| ->]]] by lia;
      reflexivity.
Defined.

(** ** Panics of generation *)




(** ** NewFromSamples *)



(** Without samples, or with zero bars, [NewFromSamples] returns a
    waveform without peaks, whatever else the config says. *)
Theorem NewFromSamples_empty numCPU sched samples config :
  len samples = 0 \/ Bars (default DefaultConfig config) = 0 ->
  NewFromSamples numCPU sched samples config
  = Some {| Peaks := []; Config_ := Some (default DefaultConfig config) |}.
Proof.
  intros H. unfold NewFromSamples, generate.
  rewrite downsample_nil, downsampleConcurrent_nil by done.
  by destruct (Concurrent _).
Qed.

Lemma NewFromSamples_empty_witness :
  NewFromSamples 4 [] [] None
  = Some {| Peaks := []; Config_ := Some DefaultConfig |}.
Proof.
  apply (NewFromSamples_empty 4 [] [] None). left. reflexivity.
Defined.

(** The [Concurrent] flag, the number of CPUs and the scheduling change no
    peak: two configs with the same bars and mode give the same peaks. *)
Theorem generate_flag_independent numCPU numCPU' sched sched' samples
    config config' :
  len samples <= Int.max_int ->
  Bars config <= Int.max_int ->
  0 < numCPU <= Int.max_int ->
  0 < numCPU' <= Int.max_int ->
  Bars config' = Bars config ->
  Mode config' = Mode config ->
  Peaks <$> NewFromSamples numCPU sched samples (Some config)
  = Peaks <$> NewFromSamples numCPU' sched' samples (Some config').
Proof.
  intros Hn Hb Hc Hc' HB HM. unfold NewFromSamples, generate. simpl.
  rewrite HB, HM.
  assert (forall nc sc, 0 < nc <= Int.max_int ->
            downsampleConcurrent nc sc samples (Bars config) (Mode config)
            = downsample samples (Bars config) (Mode config)) as Heq.
  { intros nc sc Hnc.
    destruct (decide (len samples = 0 \/ Bars config = 0)) as [Hz|Hnz].
    { by rewrite downsample_nil, downsampleConcurrent_nil. }
    assert (0 < len samples <= Int.max_int) as Hn'
      by (unfold len in *; lia).
    destruct (Z.lt_ge_cases (Bars config) 0) as [Hneg|Hpos].
    { by rewrite downsample_negative, downsampleConcurrent_negative by lia. }
    assert (0 < Bars config <= Int.max_int) as Hb' by lia.
    rewrite (downsample_eq samples _ (Mode config) Hn' Hb').
    by rewrite (downsampleConcurrent_eq samples _ (Mode config) Hn' Hb'
                  nc sc Hnc). }
  rewrite !Heq by done.
  destruct (Concurrent config), (Concurrent config');
    by destruct (downsample samples (Bars config) (Mode config)).
Qed.

Lemma generate_flag_independent_witness :
  Peaks <$> NewFromSamples 4 [1%nat] [5; -6; 7; 8]
              (Some {| Width := 500; Height := 80; Bars := 2;
                       BarSpacing := 2; BarColor := "#3B82F6";
                       CornerRadius := 8%float; Concurrent := true;
                       Mode := ModeVU |})
  = Peaks <$> NewFromSamples 8 [] [5; -6; 7; 8]
                (Some {| Width := 100; Height := 20; Bars := 2;
                         BarSpacing := 0; BarColor := "#000000";
                         CornerRadius := 0%float; Concurrent := false;
                         Mode := ModeVU |}).
Proof.
  apply generate_flag_independent; try reflexivity;
    repeat split; vm_compute; congruence.
Defined.

(** ** Unknown modes *)

Definition known_modes : list CalculationMode :=
  [ModeRMS; ModeLUFS; ModePeak; ModeVU; ModeDynamic; ModeSmooth].

Lemma calculateLoudness_unknown samples start end_ mode :
  mode ∉ known_modes ->
  calculateLoudness samples start end_ mode
  = calculateLoudness samples start end_ ModeLUFS.
Proof.
  intros Hm. unfold calculateLoudness.
  repeat match goal with
         | |- context [String.eqb mode ?m] =>
             destruct (String.eqb_spec mode m) as [->|_];
             [exfalso; apply Hm; unfold known_modes;
              repeat (apply elem_of_cons; first [by left | right])|]
         end.
  reflexivity.
Qed.

Lemma run_schedule_ext fill fill' sched : forall ws peaks,
  (forall b p, fill b p = fill' b p) ->
  run_schedule fill sched ws peaks = run_schedule fill' sched ws peaks.
Proof.
  induction sched as [|k sched IH]; intros ws peaks H; simpl; [done|].
  destruct (ws !! k) as [w|]; [|by apply IH].
  unfold worker_step. rewrite H.
  destruct (_ <? _); simpl; [|by apply IH].
  destruct (fill' _ _); simpl; [by apply IH|done].
Qed.

Lemma wait_ext fill fill' ws : forall peaks,
  (forall b p, fill b p = fill' b p) ->
  wait fill ws peaks = wait fill' ws peaks.
Proof.
  induction ws as [|w ws IH]; intros peaks H; simpl; [done|].
  rewrite (for_range_ext fill fill') by (intros; apply H).
  destruct (for_range _ _ fill' peaks); simpl; [by apply IH|done].
Qed.

(** A mode outside the six recognised ones gives the waveform of the LUFS
    mode, without an error. *)
Theorem unknown_mode_is_LUFS numCPU sched samples config :
  Mode config ∉ known_modes ->
  NewFromSamples numCPU sched samples (Some config)
  = NewFromSamples numCPU sched samples
      (Some {| Width := Width config; Height := Height config;
               Bars := Bars config; BarSpacing := BarSpacing config;
               BarColor := BarColor config;
               CornerRadius := CornerRadius config;
               Concurrent := Concurrent config; Mode := ModeLUFS |})
    ≫= (fun w => Some {| Peaks := Peaks w; Config_ := Some config |}).
Proof.
  intros Hm. unfold NewFromSamples, generate. simpl.
  assert (forall spb b p,
            fill_bucket samples spb (Mode config) b p
            = fill_bucket samples spb ModeLUFS b p) as Hfill.
  { intros spb b p. unfold fill_bucket.
    destruct (bucket_range _ _ _).
    by rewrite calculateLoudness_unknown. }
  assert (downsample samples (Bars config) (Mode config)
          = downsample samples (Bars config) ModeLUFS) as Hd.
  { unfold downsample. destruct (_ || _); [done|].
    destruct (samplesPerBucket _ _) as [spb|]; simpl; [|done].
    destruct (make_float64 _); simpl; [|done].
    apply for_range_ext. intros; apply Hfill. }
  assert (downsampleConcurrent numCPU sched samples (Bars config)
            (Mode config)
          = downsampleConcurrent numCPU sched samples (Bars config)
              ModeLUFS) as Hc.
  { unfold downsampleConcurrent. destruct (_ || _); [done|].
    destruct (samplesPerBucket _ _) as [spb|]; simpl; [|done].
    destruct (_ <? 50000); [done|].
    destruct (make_float64 _); simpl; [|done].
    destruct (Int.div _ _); simpl; [|done].
    destruct (if _ =? 0 then _ else _) as [bpw nw].
    rewrite (run_schedule_ext _ (fill_bucket samples spb ModeLUFS))
      by apply Hfill.
    destruct (run_schedule _ _ _ _) as [[ws peaks]|]; simpl; [|done].
    apply wait_ext, Hfill. }
  rewrite Hd, Hc.
  by destruct (if Concurrent config then _ else _).
Qed.

Lemma unknown_mode_is_LUFS_witness :
  NewFromSamples 4 [] [5; -6; 7; 8]
    (Some {| Width := 500; Height := 80; Bars := 2; BarSpacing := 2;
             BarColor := "#3B82F6"; CornerRadius := 8%float;
             Concurrent := true; Mode := "loud"%string |})
  = NewFromSamples 4 [] [5; -6; 7; 8]
      (Some {| Width := 500; Height := 80; Bars := 2; BarSpacing := 2;
               BarColor := "#3B82F6"; CornerRadius := 8%float;
               Concurrent := true; Mode := ModeLUFS |})
    ≫= (fun w =>
          Some {| Peaks := Peaks w;
                  Config_ :=
                    Some {| Width := 500; Height := 80; Bars := 2;
                            BarSpacing := 2; BarColor := "#3B82F6";
                            CornerRadius := 8%float; Concurrent := true;
                            Mode := "loud"%string |} |}).
Proof.
  apply (unknown_mode_is_LUFS 4 [] [5; -6; 7; 8]
           {| Width := 500; Height := 80; Bars := 2; BarSpacing := 2;
              BarColor := "#3B82F6"; CornerRadius := 8%float;
              Concurrent := true; Mode := "loud"%string |}).
  unfold known_modes. simpl. intros H.
  repeat (apply elem_of_cons in H as [H|H]; [discriminate H|]).
  by apply elem_of_nil in H.
Defined.

(** ** UpdateConfig *)

(** A second call of [UpdateConfig] with the config of the first changes
    nothing, whatever samples it is given: the mode is the stored one, so
    the peaks are not computed again. *)
Theorem UpdateConfig_idempotent numCPU sched numCPU' sched' w config samples
    samples' w1 :
  UpdateConfig numCPU sched w (Some config) samples = Some w1 ->
  UpdateConfig numCPU' sched' w1 (Some config) samples' = Some w1.
Proof.
  unfold UpdateConfig at 1. destruct (Config_ w) as [old|]; simpl; [|done].
  intros H.
  assert (Config_ w1 = Some config) as Hcfg.
  { destruct (negb _ && _); [|by injection H as <-].
    destruct (generate _ _ _ _); [|done]. by injection H as <-. }
  rewrite (UpdateConfig_same_mode numCPU' sched' w1 config config samples')
    by done.
  destruct w1 as [p c]. simpl in *. by rewrite Hcfg.
Qed.

Lemma UpdateConfig_idempotent_witness :
  let config := {| Width := 500; Height := 80; Bars := 2; BarSpacing := 2;
                   BarColor := "#3B82F6"; CornerRadius := 8%float;
                   Concurrent := false; Mode := ModePeak |} in
  let w := {| Peaks := [1%float]; Config_ := Some DefaultConfig |} in
  let w1 := {| Peaks := [0.00018310546875; 0.000244140625]%float;
               Config_ := Some config |} in
  UpdateConfig 1 [] w1 (Some config) None = Some w1.
Proof.
  intros config w w1.
  apply (UpdateConfig_idempotent 4 [] 1 [] w config (Some [5; -6; 7; 8])
           None w1).
  vm_compute. reflexivity.
Defined.





(** ** The ranges of the goroutines *)

(** Every goroutine has at least one bucket; the ranges follow one another
    from bucket 0 to the last bucket; all but the last hold exactly
    [bucketsPerWorker] buckets; and there are never more goroutines than
    CPUs or than buckets. *)
Theorem worker_ranges_shape buckets numCPU :
  0 < buckets <= Int.max_int ->
  0 < numCPU <= Int.max_int ->
  let bpw := fst (worker_plan buckets numCPU) in
  let nw := snd (worker_plan buckets numCPU) in
  nw = Z.min numCPU buckets /\
  fst (worker_range buckets bpw nw 0) = 0 /\
  snd (worker_range buckets bpw nw (nw - 1)) = buckets /\
  forall k, 0 <= k < nw ->
    spawn buckets bpw nw k
    = {| w_bucket := fst (worker_range buckets bpw nw k);
         w_endBucket := snd (worker_range buckets bpw nw k) |} /\
    fst (worker_range buckets bpw nw k) < snd (worker_range buckets bpw nw k)
    /\ (k < nw - 1 ->
        snd (worker_range buckets bpw nw k)
        = fst (worker_range buckets bpw nw k) + bpw /\
        snd (worker_range buckets bpw nw k)
        = fst (worker_range buckets bpw nw (k + 1))).
Proof.
  intros Hb Hc bpw nw.
  pose proof (worker_plan_bounds buckets Hb numCPU Hc) as (H1 & H2 & H3).
  fold bpw nw in H1, H2, H3.
  split; [|split; [|split]].
  - subst nw. unfold worker_plan.
    pose proof (Z.div_pos buckets numCPU ltac:(lia) ltac:(lia)).
    destruct (Z.eqb_spec (buckets / numCPU) 0) as [Hz|Hnz]; simpl.
    + apply Z.div_small_iff in Hz; lia.
    + assert (numCPU <= buckets); [|lia].
      destruct (Z.le_gt_cases numCPU buckets); [done|].
      rewrite Z.div_small in Hnz; lia.
  - unfold worker_range. simpl. lia.
  - unfold worker_range. simpl. by rewrite Z.eqb_refl.
  - intros k Hk. split; [by apply spawn_eq|].
    unfold worker_range. simpl.
    destruct (Z.eqb_spec k (nw - 1)) as [->|Hne].
    + split; [nia|lia].
    + split; [nia|]. intros _. split; lia.
Qed.

Lemma worker_ranges_shape_witness :
  snd (worker_plan 10 4) = Z.min 4 10 /\
  spawn 10 (fst (worker_plan 10 4)) (snd (worker_plan 10 4)) 3
  = {| w_bucket := 6; w_endBucket := 10 |}.
Proof.
  destruct (worker_ranges_shape 10 4) as (Hnw & _ & _ & Hk);
    [split; vm_compute; congruence..|].
  split; [exact Hnw|]. destruct (Hk 3) as [E _]; [vm_compute|exact E].
  split; congruence.
Defined.

(** ** The order of non-negative binary64 values *)

(** [+0], the positive finite values and [+Inf]. *)
Definition nonneg (x : float) : bool :=
  match Prim2SF x with
  | S754_zero false | S754_finite false _ _ | S754_infinity false => true
  | _ => false
  end.

Lemma pos_compare_cont_ltb (a b : positive) :
  match Pos.compare_cont Eq a b with Lt => true | _ => false end
  = (Z.pos a <? Z.pos b).
Proof.
  change (Pos.compare_cont Eq a b) with (Pos.compare a b).
  unfold Z.ltb. simpl. by destruct (Pos.compare a b).
Qed.

(** On non-negative values the order of the floats is the order of their
    bit patterns. *)
Lemma ltb_bits x y :
  nonneg x = true -> nonneg y = true ->
  (x <? y)%float = (F64.bits x <? F64.bits y).
Proof.
  unfold nonneg, F64.bits. rewrite ltb_spec. unfold SFltb.
  destruct (Prim2SF x) as [[]|[]| |[] m1 e1] eqn:Ex; try discriminate;
    destruct (Prim2SF y) as [[]|[]| |[] m2 e2] eqn:Ey; try discriminate;
    intros _ _; simpl SFcompare; simpl F64.sign_bit;
    try (destruct (Prim2SF_bounds _ _ _ _ Ex) as (He1 & Hm1 & Hn1));
    try (destruct (Prim2SF_bounds _ _ _ _ Ey) as (He2 & Hm2 & Hn2)).
  - reflexivity.
  - reflexivity.
  - symmetry. apply Z.ltb_lt.
    destruct (Z.ltb_spec (Z.pos m2) (2 ^ 52)); [lia|].
    assert (-1074 < e2 \/ e2 = -1074) as [? | ->] by lia; nia.
  - reflexivity.
  - reflexivity.
  - symmetry. apply Z.ltb_ge.
    destruct (Z.ltb_spec (Z.pos m2) (2 ^ 52)); [lia|].
    assert (-1074 < e2 \/ e2 = -1074) as [? | ->] by lia; nia.
  - symmetry. apply Z.ltb_ge.
    destruct (Z.ltb_spec (Z.pos m1) (2 ^ 52)); [lia|].
    assert (-1074 < e1 \/ e1 = -1074) as [? | ->] by lia; nia.
  - symmetry. apply Z.ltb_lt.
    destruct (Z.ltb_spec (Z.pos m1) (2 ^ 52)); [lia|].
    assert (-1074 < e1 \/ e1 = -1074) as [? | ->] by lia; nia.
  - destruct (Z.compare_spec e1 e2) as [->|Hlt|Hgt].
    + rewrite pos_compare_cont_ltb.
      destruct (Z.ltb_spec (Z.pos m1) (2 ^ 52)),
        (Z.ltb_spec (Z.pos m2) (2 ^ 52)),
        (Z.ltb_spec (Z.pos m1) (Z.pos m2)); symmetry;
        first [apply Z.ltb_lt | apply Z.ltb_ge]; try lia.
      all: assert (-1074 < e2 \/ e2 = -1074) as [? | ->] by lia; nia.
    + symmetry. apply Z.ltb_lt.
      specialize (Hn2 ltac:(lia)).
      destruct (Z.ltb_spec (Z.pos m2) (2 ^ 52)); [lia|].
      destruct (Z.ltb_spec (Z.pos m1) (2 ^ 52)); [nia|].
      nia.
    + symmetry. apply Z.ltb_ge.
      specialize (Hn1 ltac:(lia)).
      destruct (Z.ltb_spec (Z.pos m1) (2 ^ 52)); [lia|].
      destruct (Z.ltb_spec (Z.pos m2) (2 ^ 52)); [nia|].
      nia.
Qed.

(** ** calculatePeak *)

(** A check of every integer of [lo .. lo + n - 1]. *)
Fixpoint forall_range (n : nat) (lo : Z) (P : Z -> bool) : bool :=
  match n with
  | O => true
  | S n' => P lo && forall_range n' (lo + 1) P
  end.

Lemma forall_range_spec P n : forall lo,
  forall_range n lo P = true ->
  forall z, lo <= z < lo + Z.of_nat n -> P z = true.
Proof.
  induction n as [|n IH]; intros lo H z Hz; [lia|].
  cbn [forall_range] in H. apply andb_true_iff in H as [H1 H2].
  destruct (decide (z = lo)) as [->|Hne]; [done|].
  apply (IH (lo + 1)); [done|lia].
Qed.

(** The magnitude [k / 32768] of a sample as the code computes it. *)
Definition mag (k : Z) : float := (F64.of_int k * invMaxSample)%float.

(** For every [int16] the normalised value, negated when it is negative,
    is the magnitude of the absolute value: checked on the 65536 values. *)
Lemma negate_normalized s :
  int16 s ->
  negate_if_negative (F64.of_int s * invMaxSample)%float = mag (Z.abs s).
Proof.
  intros Hs. apply Leibniz.eqb_spec.
  apply (forall_range_spec
           (fun s => Leibniz.eqb
                       (negate_if_negative (F64.of_int s * invMaxSample))
                       (mag (Z.abs s)))
           (Z.to_nat 65536) (-32768)).
  - vm_compute. reflexivity.
  - unfold int16 in Hs. lia.
Qed.

(** The magnitudes are non-negative, exactly [k / 32768], and grow with
    [k]: checked on the 32769 values. *)
Lemma mag_facts k :
  0 <= k <= 32768 ->
  nonneg (mag k) = true /\
  mag k = (F64.of_int k / 32768)%float /\
  (k < 32768 -> F64.bits (mag k) < F64.bits (mag (k + 1))).
Proof.
  intros Hk.
  pose proof (forall_range_spec
                (fun k => nonneg (mag k)
                          && Leibniz.eqb (mag k) (F64.of_int k / 32768)
                          && ((32768 <=? k)
                              || (F64.bits (mag k) <? F64.bits (mag (k + 1)))))
                (Z.to_nat 32769) 0 ltac:(vm_compute; reflexivity) k
                ltac:(lia)) as H.
  simpl in H.
  apply andb_true_iff in H as [H H3]. apply andb_true_iff in H as [H1 H2].
  split; [done|]. split; [by apply Leibniz.eqb_spec|].
  intros Hlt. apply orb_true_iff in H3 as [H3|H3]; [lia|].
  by apply Z.ltb_lt.
Qed.

Lemma mag_bits_mono a b :
  0 <= a -> a < b -> b <= 32768 -> F64.bits (mag a) < F64.bits (mag b).
Proof.
  intros Ha Hab Hb.
  replace b with (a + 1 + Z.of_nat (Z.to_nat (b - a - 1))) by lia.
  induction (Z.to_nat (b - a - 1)) as [|n IH] eqn:E in b, Hab, Hb |- *.
  - replace (a + 1 + Z.of_nat 0) with (a + 1) by lia.
    apply mag_facts; lia.
  - etrans; [apply (IH (b - 1)); lia|].
    replace (a + 1 + Z.of_nat (S n)) with (a + 1 + Z.of_nat n + 1) by lia.
    apply mag_facts; lia.
Qed.

Lemma mag_ltb a b :
  0 <= a <= 32768 -> 0 <= b <= 32768 ->
  (mag a <? mag b)%float = (a <? b).
Proof.
  intros Ha Hb.
  rewrite ltb_bits by (apply mag_facts; lia).
  destruct (Z.ltb_spec a b) as [Hlt|Hge].
  - apply Z.ltb_lt, mag_bits_mono; lia.
  - apply Z.ltb_ge. destruct (decide (a = b)) as [->|Hne]; [lia|].
    apply Z.lt_le_incl, mag_bits_mono; lia.
Qed.

(** The largest absolute value of a list of samples. *)
Definition max_abs (l : list Z) : Z :=
  fold_left (fun m s => Z.max m (Z.abs s)) l 0.

Lemma peak_fold l : forall m,
  Forall int16 l -> 0 <= m <= 32768 ->
  fold_left
    (fun maxVal z =>
       let val := negate_if_negative (F64.of_int z * invMaxSample)%float in
       if (maxVal <? val)%float then val else maxVal) l (mag m)
  = mag (fold_left (fun m s => Z.max m (Z.abs s)) l m).
Proof.
  induction l as [|s l IH]; intros m Hl Hm; [done|].
  apply Forall_cons in Hl as [Hs Hl]. cbn [fold_left].
  rewrite (negate_normalized s Hs).
  assert (0 <= Z.abs s <= 32768) as Ha by (unfold int16 in Hs; lia).
  rewrite mag_ltb by done.
  destruct (Z.ltb_spec m (Z.abs s)).
  - rewrite Z.max_r by lia. by apply IH.
  - rewrite Z.max_l by lia. by apply IH.
Qed.

Lemma fold_max_abs_bounds l : forall m,
  0 <= m <= 32768 -> Forall int16 l ->
  0 <= fold_left (fun m s => Z.max m (Z.abs s)) l m <= 32768.
Proof.
  induction l as [|s l IH]; intros m Hm Hl; [done|].
  apply Forall_cons in Hl as [Hs Hl]. cbn [fold_left].
  apply IH; [|done]. unfold int16 in Hs. lia.
Qed.

Lemma max_abs_bounds l : Forall int16 l -> 0 <= max_abs l <= 32768.
Proof. intros Hl. by apply fold_max_abs_bounds. Qed.

Lemma calculatePeak_mag samples start end_ :
  int16_slice samples ->
  len samples <= Int.max_int ->
  0 <= start < end_ ->
  end_ <= len samples ->
  calculatePeak samples start end_
  = Some (mag (max_abs (slice samples start end_))).
Proof.
  intros Hs Hlen Hstart Hend.
  assert (Forall int16 (slice samples start end_)) as Hsl.
  { unfold slice. by apply Forall_take, Forall_drop. }
  unfold calculatePeak. destruct (Z.leb_spec end_ start); [lia|].
  rewrite (for_range_fold
             (fun v maxVal =>
                let val := negate_if_negative v in
                if (maxVal <? val)%float then val else maxVal)
             _ samples start end_) by (done || lia).
  f_equal. change 0%float with (mag 0). by rewrite peak_fold by (done || lia).
Qed.

(** On a non-empty range inside a slice of [int16] samples,
    [calculatePeak] returns exactly [max |s| / 32768] over the samples of
    the range; the value lies between 0 and 1. *)
Theorem calculatePeak_max samples start end_ :
  int16_slice samples ->
  len samples <= Int.max_int ->
  0 <= start < end_ ->
  end_ <= len samples ->
  let m := max_abs (slice samples start end_) in
  calculatePeak samples start end_ = Some (F64.of_int m / 32768)%float /\
  0 <= m <= 32768 /\
  (0 <=? F64.of_int m / 32768)%float = true /\
  (F64.of_int m / 32768 <=? 1)%float = true.
Proof.
  intros Hs Hlen Hstart Hend m.
  assert (Forall int16 (slice samples start end_)) as Hsl.
  { unfold slice. by apply Forall_take, Forall_drop. }
  pose proof (max_abs_bounds _ Hsl) as Hm. fold m in Hm.
  destruct (mag_facts m Hm) as (_ & Hdiv & _).
  rewrite <- Hdiv. split; [by apply calculatePeak_mag|]. split; [done|].
  pose proof (forall_range_spec
                (fun k => (0 <=? mag k)%float && (mag k <=? 1)%float)
                (Z.to_nat 32769) 0 ltac:(vm_compute; reflexivity) m
                ltac:(lia)) as H.
  simpl in H. by apply andb_true_iff in H.
Qed.

Lemma calculatePeak_max_witness :
  let m := max_abs (slice [100; -2000; 3000; 4] 1 3) in
  calculatePeak [100; -2000; 3000; 4] 1 3 = Some (F64.of_int m / 32768)%float.
Proof.
  intros m. apply (calculatePeak_max [100; -2000; 3000; 4] 1 3).
  - repeat constructor; vm_compute; congruence.
  - vm_compute; congruence.
  - split; vm_compute; congruence.
  - vm_compute; congruence.
Defined.

(** In peak mode, with no more buckets than samples, both paths return
    for every bucket the largest magnitude [|s| / 32768] among its
    [bucketSize] samples. *)
Theorem downsample_peak_mode numCPU sched samples buckets :
  int16_slice samples ->
  len samples <= Int.max_int ->
  0 < buckets <= len samples ->
  0 < numCPU <= Int.max_int ->
  let bs := len samples / buckets in
  exists peaks,
    downsample samples buckets ModePeak = Some peaks /\
    downsampleConcurrent numCPU sched samples buckets ModePeak = Some peaks /\
    forall i, 0 <= i < buckets ->
      peaks !! Z.to_nat i
      = Some (F64.of_int (max_abs (slice samples (i * bs) ((i + 1) * bs)))
              / 32768)%float.
Proof.
  intros Hs Hlen Hb Hc bs.
  assert (0 < len samples <= Int.max_int) as Hn by lia.
  assert (0 < buckets <= Int.max_int) as Hb' by lia.
  rewrite (downsample_eq samples buckets ModePeak Hn Hb').
  rewrite (downsampleConcurrent_eq samples buckets ModePeak Hn Hb' numCPU
             sched Hc).
  eexists. split; [done|]. split; [done|].
  intros i Hi. rewrite lookup_target by done. f_equal.
  unfold bucket_value.
  assert (bucketSize (len samples) buckets = bs) as ->.
  { unfold bucketSize. subst bs.
    pose proof (Z.div_str_pos (len samples) buckets ltac:(lia)).
    destruct (Z.eqb_spec (len samples / buckets) 0); lia. }
  pose proof (Z.mul_div_le (len samples) buckets ltac:(lia)) as Hle.
  pose proof (Z.div_str_pos (len samples) buckets ltac:(lia)) as Hpos.
  fold bs in Hle, Hpos.
  assert ((i + 1) * bs <= len samples) as Hend by nia.
  rewrite Z.min_l by done.
  change (calculateLoudness samples (i * bs) ((i + 1) * bs) ModePeak)
    with (calculatePeak samples (i * bs) ((i + 1) * bs)).
  rewrite (calculatePeak_mag samples (i * bs) ((i + 1) * bs))
    by (done || nia).
  f_equal. apply mag_facts. apply max_abs_bounds.
  unfold slice. by apply Forall_take, Forall_drop.
Qed.

Lemma downsample_peak_mode_witness :
  let bs := len [100; -2000; 3000; 4; 5] / 2 in
  exists peaks,
    downsample [100; -2000; 3000; 4; 5] 2 ModePeak = Some peaks /\
    downsampleConcurrent 4 [] [100; -2000; 3000; 4; 5] 2 ModePeak
    = Some peaks /\
    forall i, 0 <= i < 2 ->
      peaks !! Z.to_nat i
      = Some (F64.of_int
                (max_abs (slice [100; -2000; 3000; 4; 5]%Z (i * bs)
                            ((i + 1) * bs))) / 32768)%float.
Proof.
  apply (downsample_peak_mode 4 [] [100; -2000; 3000; 4; 5] 2).
  - repeat constructor; vm_compute; congruence.
  - vm_compute; congruence.
  - split; vm_compute; congruence.
  - split; vm_compute; congruence.
Defined.

(** ** Rounding never underflows to zero above the smallest exponent *)

Lemma shr_1_m mrs : 0 <= shr_m mrs -> shr_m (shr_1 mrs) = shr_m mrs / 2.
Proof.
  destruct mrs as [m r s]. cbn [shr_m]. intros Hm.
  destruct m as [|[p|p|]|p]; cbn [shr_1 shr_m]; try lia.
  - reflexivity.
  - apply Z.div_unique with 1; lia.
  - apply Z.div_unique with 0; lia.
  - reflexivity.
Qed.

Lemma iter_pos_shr_1_m p : forall mrs,
  0 <= shr_m mrs ->
  shr_m (SpecFloat.iter_pos shr_1 p mrs) = shr_m mrs / 2 ^ Z.pos p.
Proof.
  induction p as [p IH|p IH|]; intros mrs Hm; cbn [SpecFloat.iter_pos].
  - assert (0 <= shr_m (shr_1 mrs)) as H1.
    { rewrite shr_1_m by done. apply Z.div_pos; lia. }
    assert (0 <= shr_m (SpecFloat.iter_pos shr_1 p (shr_1 mrs))) as H2.
    { rewrite IH by done. apply Z.div_pos; lia. }
    rewrite IH, IH, shr_1_m by done.
    rewrite !Z.div_div by lia. f_equal.
    rewrite Pos2Z.inj_xI, Z.pow_add_r, <- Z.pow_twice_r by lia. lia.
  - assert (0 <= shr_m (SpecFloat.iter_pos shr_1 p mrs)) as H2.
    { rewrite IH by done. apply Z.div_pos; lia. }
    rewrite IH, IH by done.
    rewrite !Z.div_div by lia. f_equal.
    rewrite Pos2Z.inj_xO, <- Z.pow_twice_r. lia.
  - by rewrite shr_1_m.
Qed.

Lemma digits2_pos_mono (a b : positive) :
  (a <= b)%positive -> Z.pos (digits2_pos a) <= Z.pos (digits2_pos b).
Proof.
  intros Hab.
  pose proof (digits2_pos_bound a) as [Ha _].
  pose proof (digits2_pos_bound b) as [_ Hb].
  assert (2 ^ (Z.pos (digits2_pos a) - 1) < 2 ^ Z.pos (digits2_pos b))
    as H by lia.
  apply Z.pow_lt_mono_r_iff in H; lia.
Qed.

(** A right shift to the precision of the format leaves a positive
    mantissa, and the magnitude [e + digits] does not fall. *)
Lemma shr_fexp_pos m e l :
  -1074 < e + Z.pos (digits2_pos m) ->
  exists m' e',
    shr_fexp prec emax (Z.pos m) e l
    = ({| shr_m := Z.pos m'; shr_r := shr_r (fst (shr_fexp prec emax (Z.pos m) e l));
          shr_s := shr_s (fst (shr_fexp prec emax (Z.pos m) e l)) |}, e') /\
    e + Z.pos (digits2_pos m) <= e' + Z.pos (digits2_pos m').
Proof.
  intros Hmag. unfold shr_fexp, shr. cbn [Zdigits2].
  set (d := Z.pos (digits2_pos m)) in *.
  unfold fexp, SpecFloat.emin. change prec with 53. change emax with 1024.
  destruct (Z.max (d + e - 53) (3 - 1024 - 53) - e) as [|k|k] eqn:Ek.
  - exists m, e. split; [by destruct l as [|[]]|lia].
  - pose proof (digits2_pos_bound m) as [Hlo Hhi]. fold d in Hlo, Hhi.
    assert (Z.pos k < d) as Hk by lia.
    assert (0 <= shr_m (shr_record_of_loc (Z.pos m) l)) as H0
      by (by destruct l as [|[]]).
    pose proof (iter_pos_shr_1_m k _ H0) as Hm.
    assert (shr_m (shr_record_of_loc (Z.pos m) l) = Z.pos m) as Hrec
      by (by destruct l as [|[]]).
    rewrite Hrec in Hm.
    assert (2 ^ (d - 1 - Z.pos k) <= Z.pos m / 2 ^ Z.pos k) as Hq.
    { apply Z.div_le_lower_bound; [lia|].
      rewrite <- Z.pow_add_r by lia.
      replace (Z.pos k + (d - 1 - Z.pos k)) with (d - 1) by lia. done. }
    assert (0 < 2 ^ (d - 1 - Z.pos k)) by (apply Z.pow_pos_nonneg; lia).
    destruct (SpecFloat.iter_pos shr_1 k _) as [mk rk sk] eqn:Eit. simpl in Hm.
    destruct mk as [|mk|mk]; try lia.
    exists mk, (e + Z.pos k). split; [done|].
    pose proof (digits2_pos_bound mk) as [_ Hhi'].
    assert (2 ^ (d - 1 - Z.pos k) < 2 ^ Z.pos (digits2_pos mk)) as Hlt by lia.
    apply Z.pow_lt_mono_r_iff in Hlt; lia.
  - exists m, e. split; [by destruct l as [|[]]|lia].
Qed.

Lemma round_nearest_even_pos m l :
  exists m', round_nearest_even (Z.pos m) l = Z.pos m' /\ (m <= m')%positive.
Proof.
  assert (Z.pos m + 1 = Z.pos (m + 1)) as E by lia.
  destruct l as [|[]]; cbn [round_nearest_even]; rewrite ?E;
    try destruct (Z.even (Z.pos m)); eexists; (split; [reflexivity|lia]).
Qed.

(** The rounding of a positive mantissa above the smallest magnitude is a
    positive finite value or [+Inf]: not zero, not a NaN. *)
Lemma binary_round_aux_pos m e l :
  -1074 < e + Z.pos (digits2_pos m) ->
  (exists m' e', binary_round_aux prec emax false (Z.pos m) e l
                 = S754_finite false m' e') \/
  binary_round_aux prec emax false (Z.pos m) e l = S754_infinity false.
Proof.
  intros Hmag. unfold binary_round_aux.
  destruct (shr_fexp_pos m e l Hmag) as (m1 & e1 & -> & H1).
  cbn [shr_m].
  destruct (round_nearest_even_pos m1
              (loc_of_shr_record
                 {| shr_m := Z.pos m1;
                    shr_r := shr_r (shr_fexp prec emax (Z.pos m) e l).1;
                    shr_s := shr_s (shr_fexp prec emax (Z.pos m) e l).1 |}))
    as (m2 & -> & H2).
  pose proof (digits2_pos_mono m1 m2 H2) as Hd.
  destruct (shr_fexp_pos m2 e1 loc_Exact ltac:(lia)) as (m3 & e3 & -> & H3).
  cbn [shr_m]. destruct (e3 <=? emax - prec); [left|right]; eauto.
Qed.

Lemma digits2_pos_iter_xO m t :
  Z.pos (digits2_pos (Pos.iter xO m t))
  = Z.pos (digits2_pos m) + Z.pos t.
Proof.
  apply (Pos.iter_ind _ xO m
           (fun t r => Z.pos (digits2_pos r)
                       = Z.pos (digits2_pos m) + Z.pos t)).
  - cbn [digits2_pos]. lia.
  - intros p r IH. cbn [digits2_pos]. lia.
Qed.

Lemma binary_round_pos m e :
  -1074 < e + Z.pos (digits2_pos m) ->
  (exists m' e', binary_round prec emax false m e = S754_finite false m' e')
  \/ binary_round prec emax false m e = S754_infinity false.
Proof.
  intros Hmag. unfold binary_round, shl_align.
  destruct (fexp prec emax (Z.pos (digits2_pos m) + e) - e)
    as [|t|t] eqn:Et; try by apply binary_round_aux_pos.
  apply binary_round_aux_pos. rewrite digits2_pos_iter_xO. lia.
Qed.

(** [float64(n)] for an [int] [n > 0] is a positive value or [+Inf]. *)
Lemma of_int_positive n :
  0 < n <= Int.max_int ->
  (exists m e, Prim2SF (F64.of_int n) = S754_finite false m e) \/
  Prim2SF (F64.of_int n) = S754_infinity false.
Proof.
  intros Hn. unfold F64.of_int.
  assert (valid_binary (binary_normalize prec emax n 0 false) = true) as Hv.
  { pose proof (of_uint63_spec (Uint63.of_Z n)) as H.
    rewrite Uint63.of_Z_spec, Z.mod_small in H.
    - rewrite <- H. apply Prim2SF_valid.
    - change Uint63.wB with (2 ^ 63). unfold Int.max_int in Hn. lia. }
  rewrite Prim2SF_SF2Prim by done.
  destruct n as [|p|p]; try lia.
  apply binary_round_pos. pose proof (Pos2Z.is_pos (digits2_pos p)). lia.
Qed.

(** Zero divided by the number of samples of a non-empty range is zero. *)
Lemma zero_div_of_int n :
  0 < n <= Int.max_int -> (0 / F64.of_int n = 0)%float.
Proof.
  intros Hn. apply Prim2SF_inj. rewrite div_spec.
  change (Prim2SF 0) with (S754_zero false).
  by destruct (of_int_positive n Hn) as [(m & e & ->)| ->].
Qed.

(** ** Silence *)

Lemma for_range_fixed {St} (body : Z -> St -> option St) lo hi (s : St) :
  (forall j, lo <= j < hi -> body j s = Some s) ->
  for_range lo hi body s = Some s.
Proof.
  intros H. destruct (Z.le_gt_cases hi lo).
  - by apply for_range_empty.
  - destruct (for_range_inv (fun _ t => t = s) body lo hi s)
      as (s' & -> & ->); [lia|done| |done].
    intros j t Hj ->. exists s. split; [by apply H|done].
Qed.

Section Silence.

Variable samples : list Z.
Variables start end_ : Z.
Hypothesis Hlen : len samples <= Int.max_int.
Hypothesis Hnonempty : start < end_.
Hypothesis Hzero :
  forall i, start <= i < end_ -> sample_at samples i = Some 0.

Lemma silence_in_range : 0 <= start /\ end_ <= len samples.
Proof.
  split.
  - destruct (Z.lt_ge_cases start 0) as [Hneg|?]; [|done].
    pose proof (Hzero start ltac:(lia)) as H.
    rewrite sample_at_out_of_range in H by lia. done.
  - destruct (Z.le_gt_cases end_ (len samples)) as [?|Hbig]; [done|].
    pose proof (Hzero (end_ - 1) ltac:(lia)) as H.
    rewrite sample_at_out_of_range in H by lia. done.
Qed.

Lemma normalized_zero i :
  start <= i < end_ -> normalized samples i = Some 0%float.
Proof. intros Hi. unfold normalized. by rewrite Hzero. Qed.

Lemma bucketSize_silence :
  Int.sub end_ start = end_ - start /\ 0 < end_ - start <= Int.max_int.
Proof.
  destruct silence_in_range. split; [|lia].
  apply Int_sub_id. int_range.
Qed.

Ltac silent_loop :=
  match goal with
  | |- context [for_range ?lo end_ ?body ?s] =>
      rewrite (for_range_fixed body lo end_ s);
      [|intros j Hj; by rewrite normalized_zero by lia]
  end.

Ltac silent_mean :=
  destruct bucketSize_silence as [-> Hbs];
  cbn [mbind option_bind];
  rewrite ?(zero_div_of_int _ Hbs);
  destruct (Z.gtb_spec (end_ - start) 0); [|lia].

Lemma calculateLUFS_silence : calculateLUFS samples start end_ = Some 0%float.
Proof.
  unfold calculateLUFS. destruct (Z.leb_spec end_ start); [lia|].
  silent_loop. silent_mean. reflexivity.
Qed.

Lemma calculatePeak_silence : calculatePeak samples start end_ = Some 0%float.
Proof.
  unfold calculatePeak. destruct (Z.leb_spec end_ start); [lia|].
  by silent_loop.
Qed.

Lemma calculateVU_silence : calculateVU samples start end_ = Some 0%float.
Proof.
  unfold calculateVU. destruct (Z.leb_spec end_ start); [lia|].
  silent_loop. silent_mean. reflexivity.
Qed.

Lemma calculateSmooth_silence :
  calculateSmooth samples start end_ = Some 0%float.
Proof.
  unfold calculateSmooth. destruct (Z.leb_spec end_ start); [lia|].
  silent_loop. silent_mean. reflexivity.
Qed.

Lemma calculateDynamic_silence :
  calculateDynamic samples start end_ = Some 0%float.
Proof.
  unfold calculateDynamic. destruct (Z.leb_spec end_ start); [lia|].
  silent_loop. destruct bucketSize_silence as [-> Hbs].
  cbn [mbind option_bind]. rewrite (zero_div_of_int _ Hbs).
  silent_loop. cbn [mbind option_bind]. rewrite (zero_div_of_int _ Hbs).
  destruct (Z.gtb_spec (end_ - start) 0); [|lia]. reflexivity.
Qed.

Lemma rms_unrolled_silence n : forall i,
  start <= i -> i + 8 * Z.of_nat n <= end_ ->
  rms_unrolled n samples i 0%float = Some (i + 8 * Z.of_nat n, 0%float).
Proof.
  destruct silence_in_range as [H0 Hend].
  induction n as [|n IH]; intros i Hi Hn.
  - cbn [rms_unrolled]. do 2 f_equal. lia.
  - cbn [rms_unrolled]. rewrite !Int_add_id by int_range.
    rewrite !normalized_zero by lia. cbn [mbind option_bind].
    change (0 + (0 * 0 + 0 * 0 + 0 * 0 + 0 * 0 + 0 * 0 + 0 * 0 + 0 * 0
                 + 0 * 0))%float with 0%float.
    rewrite IH by lia. do 2 f_equal. lia.
Qed.

Lemma calculateRMS_silence : calculateRMS samples start end_ = Some 0%float.
Proof.
  unfold calculateRMS. destruct (Z.leb_spec end_ start); [lia|].
  destruct silence_in_range as [H0 Hend].
  pose proof (rms_groups_eq samples Hlen start end_ ltac:(lia) Hend) as Hg.
  pose proof (Z.mul_div_le (end_ - start) 8 ltac:(lia)).
  rewrite rms_unrolled_silence by lia. cbn [mbind option_bind].
  silent_loop. silent_mean. reflexivity.
Qed.

Lemma calculateLoudness_silence_range mode :
  calculateLoudness samples start end_ mode = Some 0%float.
Proof.
  unfold calculateLoudness.
  repeat destruct (String.eqb _ _);
    auto using calculateLUFS_silence, calculateRMS_silence,
      calculatePeak_silence, calculateVU_silence, calculateDynamic_silence,
      calculateSmooth_silence.
Qed.

End Silence.

(** Whatever the mode, a range of samples that are all 0 has loudness
    exactly 0. *)
Theorem calculateLoudness_silence samples start end_ mode :
  len samples <= Int.max_int ->
  (forall i, start <= i < end_ -> sample_at samples i = Some 0) ->
  calculateLoudness samples start end_ mode = Some 0%float.
Proof.
  intros Hlen Hzero. destruct (Z.le_gt_cases end_ start).
  - by apply calculateLoudness_empty.
  - by apply calculateLoudness_silence_range.
Qed.

Lemma calculateLoudness_silence_witness :
  calculateLoudness [7; 0; 0; 0; -3] 1 4 ModeDynamic = Some 0%float.
Proof.
  apply (calculateLoudness_silence [7; 0; 0; 0; -3] 1 4 ModeDynamic).
  - vm_compute; congruence.
  - intros i Hi.
    assert (i = 1 \/ i = 2 \/ i = 3) as [->|[->| ->]] by lia; reflexivity.
Defined.




(** * audio.go and the readers of samples

    The decoders of the audio formats are libraries outside the
    repository.  What a call of such a library returns is an argument of
    the functions below; the code around the call is embedded as it is
    written. *)

(** [int16(x)]: the conversion of an integer keeps the low 16 bits. *)
Definition int16_wrap (z : Z) : Z := (z + 32768) mod 65536 - 32768.

(** [byte(x)]: the low 8 bits. *)
Definition byte_of (z : Z) : Z := z mod 256.

Definition is_byte (b : Z) : Prop := 0 <= b < 256.

(** [s[i] = v] for a slice of any element type: a panic out of range. *)
Definition slice_store {A} (s : list A) (i : Z) (v : A) : option (list A) :=
  if (i <? 0) || (len s <=? i) then None else Some (<[Z.to_nat i := v]> s).

(** [s[i]] *)
Definition slice_at {A} (s : list A) (i : Z) : option A :=
  if i <? 0 then None else s !! Z.to_nat i.

(** [make([]T, n)] with the zero value [z]. *)
Definition slice_make {A} (z : A) (n : Z) : option (list A) :=
  if n <? 0 then None else Some (replicate (Z.to_nat n) z).

(** An [error] value: [io.EOF] or any other error; [None] is nil. *)
Inductive error :=
  | EOF
  | OtherError (msg : string).

Definition is_EOF (err : option error) : bool :=
  match err with
  | Some EOF => true
  | _ => false
  end.

(** The loop of [WAVDecoder.Read], [AIFFDecoder.Read] (and, on their
    buffers, of the FLAC and Opus decoders):
    [for i := 0; i < len(samples) && bytesWritten < len(buf)-1; i++],
    which writes [int16(samples[i])] as two bytes, low byte first. *)
Fixpoint encode_loop (fuel : nat) (samples : list Z) (i bytesWritten : Z)
    (buf : list Z) : option (list Z * Z) :=
  match fuel with
  | O => Some (buf, bytesWritten)
  | S fuel' =>
      if (i <? len samples) && (bytesWritten <? Int.sub (len buf) 1) then
        s ← slice_at samples i;
        let sample := int16_wrap s in
        buf ← slice_store buf bytesWritten (byte_of sample);
        buf ← slice_store buf (Int.add bytesWritten 1)
                (byte_of (Z.shiftr sample 8));
        encode_loop fuel' samples (i + 1) (Int.add bytesWritten 2) buf
      else Some (buf, bytesWritten)
  end.

(** [WAVDecoder.Read(buf)].  [pcm] is what [d.decoder.PCMBuffer(d.buffer)]
    returns, [data] is [d.buffer.Data] after that call.  The result is the
    buffer as written, the count and the error. *)
Definition WAVDecoder_Read (pcm : Z * option error) (data : list Z)
    (buf : list Z) : option (list Z * Z * option error) :=
  let '(n, err) := pcm in
  if bool_decide (is_Some err) && negb (is_EOF err) then Some (buf, 0, err)
  else if n =? 0 then Some (buf, 0, Some EOF)
  else
    '(buf, bytesWritten) ← encode_loop (length data) data 0 0 buf;
    Some (buf, bytesWritten, err).

(** [AIFFDecoder.Read] is the same code on the AIFF decoder. *)
Definition AIFFDecoder_Read := WAVDecoder_Read.

(** [int16(buf[i]) | int16(buf[i+1])<<8]: the shift is on an [int16] and
    keeps 16 bits. *)
Definition le16 (b0 b1 : Z) : Z :=
  Z.lor (int16_wrap b0) (int16_wrap (Z.shiftl (int16_wrap b1) 8)).

(** The loop of [readSamples] and [readSamplesFromFormat]:
    [for i := 0; i < n-1; i += 2 { samples[i/2] = ... }]. *)
Fixpoint decode_loop (fuel : nat) (buf : list Z) (n i : Z) (samples : list Z)
  : option (list Z) :=
  match fuel with
  | O => Some samples
  | S fuel' =>
      if i <? Int.sub n 1 then
        b0 ← slice_at buf i;
        b1 ← slice_at buf (Int.add i 1);
        samples ← slice_store samples (Z.quot i 2) (le16 b0 b1);
        decode_loop fuel' buf n (Int.add i 2) samples
      else Some samples
  end.

(** [samples := make([]int16, n/2)] and the loop over the [n] bytes that
    were read. *)
Definition bytes_to_samples (buf : list Z) (n : Z) : option (list Z) :=
  samples ← slice_make 0 (Z.quot n 2);
  decode_loop (Z.to_nat n) buf n 0 samples.

(** The loop over the reads of [readSamplesFromFormat].  [reads] are the
    results of the calls of [decoder.Read(buf)], in order: the buffer as
    the decoder has written it, the count and the error; a decoder that is
    asked again after them returns [0, io.EOF].  The result is the slice
    ([None] for nil) and the error. *)
Fixpoint readSamplesFromFormat_loop
    (reads : list (list Z * Z * option error)) (pcm : list Z)
  : option (option (list Z) * option error) :=
  match reads with
  | [] => Some (Some pcm, None)
  | (buf, n, err) :: reads' =>
      if (n =? 0) || bool_decide (is_Some err) then
        if negb (is_EOF err) then Some (None, err)
        else Some (Some pcm, None)
      else
        samples ← bytes_to_samples buf n;
        readSamplesFromFormat_loop reads' (pcm ++ samples)
  end.

(** [readSamplesFromFormat], after [NewAudioDecoder] has returned
    [decoder] or an error. *)
Definition readSamplesFromFormat
    (decoder : list (list Z * Z * option error) + error)
  : option (option (list Z) * option error) :=
  match decoder with
  | inr err => Some (None, Some err)
  | inl reads => readSamplesFromFormat_loop reads []
  end.

(** The loop of [readSamples], the reader of MP3 files: it stops at the
    first read without bytes or with an error, and returns what it has. *)
Fixpoint readSamples_loop (reads : list (list Z * Z * option error))
    (pcm : list Z) : option (list Z) :=
  match reads with
  | [] => Some pcm
  | (buf, n, err) :: reads' =>
      if (n =? 0) || bool_decide (is_Some err) then Some pcm
      else
        samples ← bytes_to_samples buf n;
        readSamples_loop reads' (pcm ++ samples)
  end.
